(** * DIU Lake Side Visualization: rasterizer, glyph engine, actors, frame loop

    A shallow embedding of [b.py].  Python numbers are modelled as follows.

    - Pixel and scene coordinates handed to the rasterizer are exact
      rationals ([Q]): Python's [int] values embed through [inject_Z], and
      [+], [-], [*], [/] are the exact operations.
    - [int(x)] is truncation toward zero and [round(x)] is rounding to the
      nearest integer with ties going to the even neighbour, as in Python 3.
    - [cos], [sin] and [pi] are those of the real numbers ([R]).
    - The per-tick actor updates are written once over an abstract number
      type and instantiated twice: with [Q] (exact arithmetic) and with the
      kernel's binary64 floats, which is what the interpreter computes with.
    - OpenGL is modelled by the stream of commands the code issues between
      [glBegin] and [glEnd]; "what is drawn" is the list of [glVertex2f]
      arguments in that stream. *)

From Stdlib Require Import ZArith QArith Qabs Qround Lia Lqa List Bool.
From Stdlib Require Import Ascii String.
From Stdlib Require Import Reals Lra Qreals.
From Stdlib Require Import Floats.PrimFloat Uint63.
Import ListNotations.

Set Implicit Arguments.

(* ------------------------------------------------------------------ *)
(** ** Python numeric built-ins over exact rationals *)

Module PyNum.

Local Open Scope Q_scope.

(** [a < b] as a boolean. *)
Definition Qltb (a b : Q) : bool := negb (Qle_bool b a).

(** [abs(x)]. *)
Definition py_abs (x : Q) : Q := Qabs x.

(** [max(a, b)]: the first argument unless the second is strictly larger. *)
Definition py_max (a b : Q) : Q := if Qltb a b then b else a.

(** [int(x)]: truncation toward zero. *)
Definition py_int (x : Q) : Z := Z.quot (Qnum x) (Zpos (Qden x)).

(** [round(x)]: nearest integer, ties to even. *)
Definition py_round (x : Q) : Z :=
  let f := Qfloor x in
  match Qcompare (x - inject_Z f) (1 # 2) with
  | Lt => f
  | Gt => (f + 1)%Z
  | Eq => if Z.even f then f else (f + 1)%Z
  end.

End PyNum.

(* ------------------------------------------------------------------ *)
(** ** The OpenGL command stream *)

Module GL.

Inductive mode := GL_POINTS | GL_TRIANGLE_FAN | GL_POLYGON | GL_QUADS.

(** A colour is an RGB triple or an RGBA quadruple. *)
Inductive color :=
| RGB (r g b : Q)
| RGBA (r g b a : Q).

(** Commands, over the type [N] of vertex coordinates. *)
Inductive cmd (N : Type) :=
| glColor3f (r g b : Q)
| glColor4f (r g b a : Q)
| glBegin (m : mode)
| glVertex2f (x y : N)
| glEnd.

Arguments glColor3f {N} r g b.
Arguments glColor4f {N} r g b a.
Arguments glBegin {N} m.
Arguments glVertex2f {N} x y.
Arguments glEnd {N}.

(** The vertices of a command stream, in emission order. *)
Fixpoint vertices {N : Type} (l : list (cmd N)) : list (N * N) :=
  match l with
  | [] => []
  | glVertex2f x y :: t => (x, y) :: vertices t
  | _ :: t => vertices t
  end.

(** A four-component colour goes to [glColor4f], any other to [glColor3f]. *)
Definition set_color {N : Type} (c : color) : cmd N :=
  match c with
  | RGBA r g b a => glColor4f r g b a
  | RGB r g b => glColor3f r g b
  end.

End GL.

(* ------------------------------------------------------------------ *)
(** ** Rasterizer *)

Module Rasterizer.

Import PyNum GL.
Local Open Scope Q_scope.

(** *** DDA line drawing *)

(** [steps = int(max(abs(dx), abs(dy)))]. *)
Definition dda_steps (x1 y1 x2 y2 : Q) : Z :=
  py_int (py_max (py_abs (x2 - x1)) (py_abs (y2 - y1))).

(** The body of [for _ in range(n)]: plot the rounded point, advance. *)
Fixpoint dda_loop (n : nat) (x_inc y_inc x y : Q) : list (cmd Q) :=
  match n with
  | O => []
  | S k =>
      glVertex2f (inject_Z (py_round x)) (inject_Z (py_round y))
        :: dda_loop k x_inc y_inc (x + x_inc) (y + y_inc)
  end.

(** [draw_line_dda(x1, y1, x2, y2, color)] with an RGB colour [(r, g, b)]. *)
Definition draw_line_dda (x1 y1 x2 y2 : Q) (r g b : Q) : list (cmd Q) :=
  let dx := x2 - x1 in
  let dy := y2 - y1 in
  let steps := py_int (py_max (py_abs dx) (py_abs dy)) in
  [glColor3f r g b; glBegin GL_POINTS]
    ++ (if (steps =? 0)%Z then [glVertex2f x1 y1]
        else
          let x_inc := dx / inject_Z steps in
          let y_inc := dy / inject_Z steps in
          dda_loop (Z.to_nat (steps + 1)) x_inc y_inc x1 y1)
    ++ [glEnd].

(** *** Midpoint circle, outline branch ([fill=False]) *)

(** The eight symmetric points plotted for one [(x, y)]. *)
Definition plot_circle_points (xc yc x y : Q) : list (cmd Q) :=
  [ glVertex2f (xc + x) (yc + y); glVertex2f (xc - x) (yc + y);
    glVertex2f (xc + x) (yc - y); glVertex2f (xc - x) (yc - y);
    glVertex2f (xc + y) (yc + x); glVertex2f (xc - y) (yc + x);
    glVertex2f (xc + y) (yc - x); glVertex2f (xc - y) (yc - x) ].

(** [while x <= y: ...].  [x] counts up from the integer 0; [y] and [d]
    start from the radius.  The loop is given fuel; [None] means the fuel
    ran out before the loop condition failed. *)
Fixpoint midpoint_loop (fuel : nat) (cx cy : Q) (x : Z) (y d : Q)
  : option (list (cmd Q)) :=
  match fuel with
  | O => None
  | S f =>
      if Qle_bool (inject_Z x) y then
        let pts := plot_circle_points cx cy (inject_Z x) y in
        if Qltb d 0 then
          option_map (app pts)
            (midpoint_loop f cx cy (x + 1) y (d + 2 * inject_Z x + 3))
        else
          option_map (app pts)
            (midpoint_loop f cx cy (x + 1) (y - 1) (d + 2 * (inject_Z x - y) + 5))
      else Some []
  end.

(** Fuel for the loop: one test more than [floor(radius) + 1] iterations. *)
Definition midpoint_fuel (radius : Q) : nat := S (Z.to_nat (Qfloor radius + 1)).

(** [draw_circle_midpoint(cx, cy, radius, color, fill=False)]. *)
Definition draw_circle_outline (cx cy radius : Q) (c : color)
  : option (list (cmd Q)) :=
  option_map (fun body => [set_color c; glBegin GL_POINTS] ++ body ++ [glEnd])
    (midpoint_loop (midpoint_fuel radius) cx cy 0 radius (1 - radius)).

(** *** Filled circle: a triangle fan *)

Local Open Scope R_scope.

(** [draw_circle(cx, cy, radius, color, segments=32)]. *)
Definition draw_circle (cx cy radius : R) (c : color) (segments : nat)
  : list (cmd R) :=
  [set_color c; glBegin GL_TRIANGLE_FAN; glVertex2f cx cy]
    ++ map (fun i : nat =>
              let angle := 2 * PI * INR i / INR segments in
              glVertex2f (cx + radius * cos angle) (cy + radius * sin angle))
           (seq 0 (segments + 1))
    ++ [glEnd].

(** Coordinates of a [Q] stream read as reals. *)
Definition cmd_Q2R (c : cmd Q) : cmd R :=
  match c with
  | glColor3f r g b => glColor3f r g b
  | glColor4f r g b a => glColor4f r g b a
  | glBegin m => glBegin m
  | glVertex2f x y => glVertex2f (Q2R x) (Q2R y)
  | glEnd => glEnd
  end.

(** [draw_circle_midpoint(cx, cy, radius, color, fill)]: the filled branch
    hands over to [draw_circle], the other runs the midpoint loop. *)
Definition draw_circle_midpoint (cx cy radius : Q) (c : color) (fill : bool)
  : option (list (cmd R)) :=
  if fill then Some (draw_circle (Q2R cx) (Q2R cy) (Q2R radius) c 32)
  else option_map (map cmd_Q2R) (draw_circle_outline cx cy radius c).

End Rasterizer.

(* ------------------------------------------------------------------ *)
(** ** Glyph engine *)

Module Glyph.

Import PyNum GL Rasterizer.
Local Open Scope char_scope.

(** [str.upper()] on ASCII text: [a]..[z] go to [A]..[Z], every other
    character stays. *)
Definition upper_char (c : ascii) : ascii :=
  let n := nat_of_ascii c in
  if ((97 <=? n) && (n <=? 122))%nat then ascii_of_nat (n - 32) else c.

Fixpoint upper (s : string) : string :=
  match s with
  | EmptyString => EmptyString
  | String c t => String (upper_char c) (upper t)
  end.

Local Open Scope Z_scope.

(** The table [letter_lines] of [draw_text_dda]: segments [(x1, y1, x2, y2)]. *)
Definition letter_lines (c : ascii) : option (list (Z * Z * Z * Z)) :=
  match c with
  | "D" => Some [(0, 7, 0, 0); (0, 7, 3, 7); (3, 7, 4, 6); (4, 6, 4, 1);
      (4, 1, 3, 0); (3, 0, 0, 0)]
  | "A" => Some [(0, 0, 2, 7); (2, 7, 4, 0); (1, 3, 3, 3)]
  | "F" => Some [(0, 0, 0, 7); (0, 7, 4, 7); (0, 4, 3, 4)]
  | "O" => Some [(1, 7, 3, 7); (0, 6, 0, 1); (4, 6, 4, 1); (1, 0, 3, 0);
      (0, 6, 1, 7); (3, 7, 4, 6); (0, 1, 1, 0); (3, 0, 4, 1)]
  | "I" => Some [(0, 7, 4, 7); (2, 7, 2, 0); (0, 0, 4, 0)]
  | "L" => Some [(0, 7, 0, 0); (0, 0, 4, 0)]
  | "N" => Some [(0, 0, 0, 7); (0, 7, 4, 0); (4, 0, 4, 7)]
  | "T" => Some [(0, 7, 4, 7); (2, 7, 2, 0)]
  | "E" => Some [(0, 7, 0, 0); (0, 7, 4, 7); (0, 4, 3, 4); (0, 0, 4, 0)]
  | "R" => Some [(0, 0, 0, 7); (0, 7, 3, 7); (3, 7, 4, 6); (4, 6, 4, 4);
      (4, 4, 3, 3); (3, 3, 0, 3); (2, 3, 4, 0)]
  | "S" => Some [(4, 6, 3, 7); (3, 7, 1, 7); (1, 7, 0, 6); (0, 6, 0, 4);
      (0, 4, 1, 3); (1, 3, 3, 3); (3, 3, 4, 2); (4, 2, 4, 1); (4, 1, 3, 0);
      (3, 0, 1, 0); (1, 0, 0, 1)]
  | "U" => Some [(0, 7, 0, 1); (0, 1, 1, 0); (1, 0, 3, 0); (3, 0, 4, 1);
      (4, 1, 4, 7)]
  | "V" => Some [(0, 7, 2, 0); (2, 0, 4, 7)]
  | "Y" => Some [(0, 7, 2, 4); (4, 7, 2, 4); (2, 4, 2, 0)]
  | _ => None
  end.

(** The table [letter_circles] of [draw_text_midpoint_circle]: dots
    [(x, y, radius)]. *)
Definition letter_circles (c : ascii) : option (list (Z * Z * Z)) :=
  match c with
  | "D" => Some [(0, 0, 1); (0, 1, 1); (0, 2, 1); (0, 3, 1); (0, 4, 1);
      (0, 5, 1); (0, 6, 1); (0, 7, 1); (1, 7, 1); (2, 7, 1); (3, 6, 1);
      (3, 5, 1); (3, 4, 1); (3, 3, 1); (3, 2, 1); (3, 1, 1); (2, 0, 1);
      (1, 0, 1)]
  | "I" => Some [(0, 7, 1); (1, 7, 1); (2, 7, 1); (3, 7, 1); (4, 7, 1);
      (2, 6, 1); (2, 5, 1); (2, 4, 1); (2, 3, 1); (2, 2, 1); (2, 1, 1);
      (0, 0, 1); (1, 0, 1); (2, 0, 1); (3, 0, 1); (4, 0, 1)]
  | "U" => Some [(0, 7, 1); (0, 6, 1); (0, 5, 1); (0, 4, 1); (0, 3, 1);
      (0, 2, 1); (0, 1, 1); (1, 0, 1); (2, 0, 1); (3, 0, 1); (4, 1, 1);
      (4, 2, 1); (4, 3, 1); (4, 4, 1); (4, 5, 1); (4, 6, 1); (4, 7, 1)]
  | "L" => Some [(0, 7, 1); (0, 6, 1); (0, 5, 1); (0, 4, 1); (0, 3, 1);
      (0, 2, 1); (0, 1, 1); (0, 0, 1); (1, 0, 1); (2, 0, 1); (3, 0, 1);
      (4, 0, 1)]
  | "A" => Some [(2, 7, 1); (1, 6, 1); (3, 6, 1); (0, 5, 1); (4, 5, 1);
      (0, 4, 1); (4, 4, 1); (0, 3, 1); (1, 3, 1); (2, 3, 1); (3, 3, 1);
      (4, 3, 1); (0, 2, 1); (4, 2, 1); (0, 1, 1); (4, 1, 1); (0, 0, 1);
      (4, 0, 1)]
  | "K" => Some [(0, 7, 1); (0, 6, 1); (0, 5, 1); (0, 4, 1); (0, 3, 1);
      (0, 2, 1); (0, 1, 1); (0, 0, 1); (3, 7, 1); (2, 6, 1); (1, 5, 1);
      (1, 4, 1); (2, 3, 1); (3, 2, 1); (4, 1, 1); (4, 0, 1)]
  | "E" => Some [(0, 7, 1); (1, 7, 1); (2, 7, 1); (3, 7, 1); (4, 7, 1);
      (0, 6, 1); (0, 5, 1); (0, 4, 1); (1, 4, 1); (2, 4, 1); (3, 4, 1);
      (0, 3, 1); (0, 2, 1); (0, 1, 1); (0, 0, 1); (1, 0, 1); (2, 0, 1);
      (3, 0, 1); (4, 0, 1)]
  | "S" => Some [(1, 7, 1); (2, 7, 1); (3, 7, 1); (4, 7, 1); (0, 6, 1);
      (0, 5, 1); (0, 4, 1); (1, 4, 1); (2, 4, 1); (3, 4, 1); (4, 3, 1);
      (4, 2, 1); (4, 1, 1); (0, 0, 1); (1, 0, 1); (2, 0, 1); (3, 0, 1)]
  | "V" => Some [(0, 7, 1); (0, 6, 1); (0, 5, 1); (1, 4, 1); (1, 3, 1);
      (1, 2, 1); (2, 1, 1); (2, 0, 1); (3, 2, 1); (3, 3, 1); (3, 4, 1);
      (4, 5, 1); (4, 6, 1); (4, 7, 1)]
  | "Z" => Some [(0, 7, 1); (1, 7, 1); (2, 7, 1); (3, 7, 1); (4, 7, 1);
      (4, 6, 1); (3, 5, 1); (2, 4, 1); (1, 3, 1); (0, 2, 1); (0, 1, 1);
      (0, 0, 1); (1, 0, 1); (2, 0, 1); (3, 0, 1); (4, 0, 1)]
  | "T" => Some [(0, 7, 1); (1, 7, 1); (2, 7, 1); (3, 7, 1); (4, 7, 1);
      (2, 6, 1); (2, 5, 1); (2, 4, 1); (2, 3, 1); (2, 2, 1); (2, 1, 1);
      (2, 0, 1)]
  | "O" => Some [(1, 7, 1); (2, 7, 1); (3, 7, 1); (0, 6, 1); (4, 6, 1);
      (0, 5, 1); (4, 5, 1); (0, 4, 1); (4, 4, 1); (0, 3, 1); (4, 3, 1);
      (0, 2, 1); (4, 2, 1); (0, 1, 1); (4, 1, 1); (1, 0, 1); (2, 0, 1);
      (3, 0, 1)]
  | "N" => Some [(0, 7, 1); (0, 6, 1); (0, 5, 1); (0, 4, 1); (0, 3, 1);
      (0, 2, 1); (0, 1, 1); (0, 0, 1); (1, 6, 1); (2, 5, 1); (2, 4, 1);
      (3, 3, 1); (3, 2, 1); (4, 7, 1); (4, 6, 1); (4, 5, 1); (4, 4, 1);
      (4, 3, 1); (4, 2, 1); (4, 1, 1); (4, 0, 1)]
  | "M" => Some [(0, 0, 1); (0, 1, 1); (0, 2, 1); (0, 3, 1); (0, 4, 1);
      (0, 5, 1); (0, 6, 1); (0, 7, 1); (1, 6, 1); (2, 5, 1); (3, 6, 1);
      (4, 0, 1); (4, 1, 1); (4, 2, 1); (4, 3, 1); (4, 4, 1); (4, 5, 1);
      (4, 6, 1); (4, 7, 1)]
  | "H" => Some [(0, 7, 1); (0, 6, 1); (0, 5, 1); (0, 4, 1); (0, 3, 1);
      (0, 2, 1); (0, 1, 1); (0, 0, 1); (1, 4, 1); (2, 4, 1); (3, 4, 1);
      (4, 7, 1); (4, 6, 1); (4, 5, 1); (4, 4, 1); (4, 3, 1); (4, 2, 1);
      (4, 1, 1); (4, 0, 1)]
  | "R" => Some [(0, 7, 1); (0, 6, 1); (0, 5, 1); (0, 4, 1); (0, 3, 1);
      (0, 2, 1); (0, 1, 1); (0, 0, 1); (1, 7, 1); (2, 7, 1); (3, 6, 1);
      (3, 5, 1); (3, 4, 1); (2, 4, 1); (1, 4, 1); (2, 3, 1); (3, 2, 1);
      (4, 1, 1); (4, 0, 1)]
  | "F" => Some [(0, 7, 1); (0, 6, 1); (0, 5, 1); (0, 4, 1); (0, 3, 1);
      (0, 2, 1); (0, 1, 1); (0, 0, 1); (1, 7, 1); (2, 7, 1); (3, 7, 1);
      (4, 7, 1); (1, 4, 1); (2, 4, 1); (3, 4, 1)]
  | "G" => Some [(1, 7, 1); (2, 7, 1); (3, 7, 1); (4, 7, 1); (0, 6, 1);
      (0, 5, 1); (0, 4, 1); (0, 3, 1); (0, 2, 1); (0, 1, 1); (1, 0, 1);
      (2, 0, 1); (3, 0, 1); (4, 1, 1); (4, 2, 1); (4, 3, 1); (3, 3, 1);
      (2, 3, 1)]
  | "P" => Some [(0, 7, 1); (0, 6, 1); (0, 5, 1); (0, 4, 1); (0, 3, 1);
      (0, 2, 1); (0, 1, 1); (0, 0, 1); (1, 7, 1); (2, 7, 1); (3, 7, 1);
      (4, 6, 1); (4, 5, 1); (4, 4, 1); (3, 4, 1); (2, 4, 1); (1, 4, 1)]
  | "X" => Some [(0, 7, 1); (0, 6, 1); (1, 5, 1); (2, 4, 1); (1, 3, 1);
      (0, 2, 1); (0, 1, 1); (0, 0, 1); (4, 7, 1); (4, 6, 1); (3, 5, 1);
      (3, 3, 1); (4, 2, 1); (4, 1, 1); (4, 0, 1)]
  | "Y" => Some [(0, 7, 1); (0, 6, 1); (1, 5, 1); (2, 4, 1); (2, 3, 1);
      (2, 2, 1); (2, 1, 1); (2, 0, 1); (4, 7, 1); (4, 6, 1); (3, 5, 1)]
  | "B" => Some [(0, 7, 1); (0, 6, 1); (0, 5, 1); (0, 4, 1); (0, 3, 1);
      (0, 2, 1); (0, 1, 1); (0, 0, 1); (1, 7, 1); (2, 7, 1); (3, 6, 1);
      (3, 5, 1); (2, 4, 1); (1, 4, 1); (2, 4, 1); (3, 4, 1); (3, 3, 1);
      (3, 2, 1); (3, 1, 1); (2, 0, 1); (1, 0, 1)]
  | "W" => Some [(0, 7, 1); (0, 6, 1); (0, 5, 1); (0, 4, 1); (0, 3, 1);
      (0, 2, 1); (0, 1, 1); (0, 0, 1); (1, 1, 1); (2, 2, 1); (3, 1, 1);
      (4, 7, 1); (4, 6, 1); (4, 5, 1); (4, 4, 1); (4, 3, 1); (4, 2, 1);
      (4, 1, 1); (4, 0, 1)]
  | _ => None
  end.

Local Open Scope Q_scope.

(** [for dx in range(3): for dy in range(3): draw_line_dda(...)]. *)
Definition bold_line (px1 py1 px2 py2 r g b : Q) : list (cmd Q) :=
  flat_map (fun dx : Z =>
    flat_map (fun dy : Z =>
      draw_line_dda (px1 + inject_Z dx) (py1 + inject_Z dy)
                    (px2 + inject_Z dx) (py2 + inject_Z dy) r g b)
      [0; 1; 2]%Z)
    [0; 1; 2]%Z.

(** The strokes of one letter at cursor offset [offset_x]. *)
Definition draw_letter_lines (lines : list (Z * Z * Z * Z))
    (x y scale r g b offset_x : Q) : list (cmd Q) :=
  flat_map (fun '(x1, y1, x2, y2) =>
    let px1 := x + offset_x + inject_Z x1 * scale * (15 # 10) in
    let py1 := y + inject_Z y1 * scale * (12 # 10) in
    let px2 := x + offset_x + inject_Z x2 * scale * (15 # 10) in
    let py2 := y + inject_Z y2 * scale * (12 # 10) in
    bold_line px1 py1 px2 py2 r g b) lines.

(** The loop [for char in ...] of [draw_text_dda]. *)
Fixpoint text_dda_loop (s : string) (x y scale r g b char_spacing offset_x : Q)
  : list (cmd Q) :=
  match s with
  | EmptyString => []
  | String char t =>
      match letter_lines char with
      | Some lines =>
          draw_letter_lines lines x y scale r g b offset_x
            ++ text_dda_loop t x y scale r g b char_spacing
                 (offset_x + 6 * scale * (15 # 10) * char_spacing)
      | None =>
          if Ascii.eqb char " " then
            text_dda_loop t x y scale r g b char_spacing
              (offset_x + 5 * scale * (15 # 10) * char_spacing)
          else text_dda_loop t x y scale r g b char_spacing offset_x
      end
  end.

(** [draw_text_dda(text, x, y, scale, color, char_spacing)]. *)
Definition draw_text_dda (text : string) (x y scale r g b char_spacing : Q)
  : list (cmd Q) :=
  text_dda_loop (upper text) x y scale r g b char_spacing 0.

(** Sequencing of drawing calls that may fail to return. *)
Definition seq_draw {N : Type} (a b : option (list (cmd N)))
  : option (list (cmd N)) :=
  match a, b with
  | Some l1, Some l2 => Some (l1 ++ l2)
  | _, _ => None
  end.

(** One dot: four overlapping filled circles. *)
Definition bold_dot (px py radius : Q) (c : color) : option (list (cmd R)) :=
  seq_draw (draw_circle_midpoint px py radius c true)
    (seq_draw (draw_circle_midpoint (px + (1 # 2)) py radius c true)
       (seq_draw (draw_circle_midpoint px (py + (1 # 2)) radius c true)
          (draw_circle_midpoint (px + (1 # 2)) (py + (1 # 2)) radius c true))).

(** The dots of one letter at cursor offset [offset_x]. *)
Fixpoint draw_letter_circles (circles : list (Z * Z * Z))
    (x y scale : Q) (c : color) (offset_x : Q) : option (list (cmd R)) :=
  match circles with
  | [] => Some []
  | (cx, cy, r) :: rest =>
      let px := x + offset_x + inject_Z cx * scale * 2 in
      let py := y + inject_Z cy * scale * 2 in
      seq_draw (bold_dot px py (inject_Z r * scale * (18 # 10)) c)
               (draw_letter_circles rest x y scale c offset_x)
  end.

(** The loop [for char in ...] of [draw_text_midpoint_circle]. *)
Fixpoint text_circle_loop (s : string) (x y scale : Q) (c : color) (offset_x : Q)
  : option (list (cmd R)) :=
  match s with
  | EmptyString => Some []
  | String char t =>
      match letter_circles char with
      | Some circles =>
          seq_draw (draw_letter_circles circles x y scale c offset_x)
                   (text_circle_loop t x y scale c (offset_x + 7 * scale * 2))
      | None =>
          if Ascii.eqb char " " then
            text_circle_loop t x y scale c (offset_x + 5 * scale * 2)
          else text_circle_loop t x y scale c offset_x
      end
  end.

(** [draw_text_midpoint_circle(text, x, y, scale, color)]. *)
Definition draw_text_midpoint_circle (text : string) (x y scale : Q) (c : color)
  : option (list (cmd R)) :=
  text_circle_loop (upper text) x y scale c 0.

End Glyph.

(* ------------------------------------------------------------------ *)
(** ** Actor state and the per-tick update *)

Module Actors.

Local Open Scope Z_scope.

(** The arithmetic the update uses, over a number type [T]. *)
Class PyFloat (T : Type) := {
  add : T -> T -> T;
  sub : T -> T -> T;
  mul : T -> T -> T;
  (** [a < b] *)
  ltb : T -> T -> bool;
  (** an [int] *)
  of_Z : Z -> T;
  (** the decimal literal [n / d] *)
  lit : Z -> positive -> T
}.

(** [a > b] *)
Definition gtb {T : Type} `{PyFloat T} (a b : T) : bool := ltb b a.

(** Exact arithmetic. *)
#[export] Instance Q_PyFloat : PyFloat Q := {
  add := Qplus;
  sub := Qminus;
  mul := Qmult;
  ltb := PyNum.Qltb;
  of_Z := inject_Z;
  lit := Qmake
}.

(** A small [int] as a binary64 float (exact below [2^53]). *)
Definition float_of_Z (z : Z) : float :=
  match z with
  | Z0 => PrimFloat.zero
  | Zpos _ => PrimFloat.of_uint63 (Uint63.of_Z z)
  | Zneg p => PrimFloat.opp (PrimFloat.of_uint63 (Uint63.of_Z (Zpos p)))
  end.

(** Binary64 arithmetic, rounding to nearest, ties to even; a decimal
    literal is the float nearest to it, which the correctly rounded quotient
    of its numerator and denominator gives. *)
#[export] Instance float_PyFloat : PyFloat float := {
  add := PrimFloat.add;
  sub := PrimFloat.sub;
  mul := PrimFloat.mul;
  ltb := PrimFloat.ltb;
  of_Z := float_of_Z;
  lit := fun n d => PrimFloat.div (float_of_Z n) (float_of_Z (Zpos d))
}.

Definition WINDOW_WIDTH : Z := 1000.
Definition WINDOW_HEIGHT : Z := 600.

Section Update.

Context {T : Type} `{PyFloat T}.

(** The module-level animation variables. *)
Record SceneState := {
  bus_x : T;
  bus2_x : T;
  kayak1_x : T;
  kayak2_x : T;
  kayak3_x : T;
  plane_x : T;
  fish_jump_states : list Z;
  fish_timers : list Z;
  deer1_x : T;
  deer2_x : T;
  deer_direction : Z;
  cloud_offset : T
}.

(** The values the variables are initialised with. *)
Definition initial : SceneState := {|
  bus_x := of_Z (-200);
  bus2_x := of_Z (-600);
  kayak1_x := of_Z 200;
  kayak2_x := of_Z 500;
  kayak3_x := of_Z 800;
  plane_x := of_Z (-200);
  fish_jump_states := [0; 0; 0; 0]%Z;
  fish_timers := [0; 0; 0; 0]%Z;
  deer1_x := of_Z 320;
  deer2_x := of_Z 380;
  deer_direction := 1;
  cloud_offset := of_Z 0
|}.

(** [x += speed; if x > limit: x = restart]. *)
Definition move_right (speed : T) (limit restart : Z) (x : T) : T :=
  let x' := add x speed in
  if gtb x' (of_Z limit) then of_Z restart else x'.

(** [x -= speed; if x < limit: x = restart]. *)
Definition move_left (speed : T) (limit restart : Z) (x : T) : T :=
  let x' := sub x speed in
  if ltb x' (of_Z limit) then of_Z restart else x'.

Definition step_bus : T -> T := move_right (lit 12 10) (WINDOW_WIDTH + 120) (-200).
Definition step_bus2 : T -> T := move_right (lit 10 10) (WINDOW_WIDTH + 120) (-200).
Definition step_kayak1 : T -> T := move_left (lit 35 100) (-100) (WINDOW_WIDTH + 100).
Definition step_kayak2 : T -> T := move_left (lit 28 100) (-100) (WINDOW_WIDTH + 100).
Definition step_kayak3 : T -> T := move_left (lit 4 10) (-100) (WINDOW_WIDTH + 100).
Definition step_plane : T -> T := move_right (lit 20 10) (WINDOW_WIDTH + 200) (-200).
Definition step_cloud : T -> T := move_right (lit 8 100) (WINDOW_WIDTH + 200) 0.

(** The body of the fish loop for fish [i], on its jump state and timer. *)
Definition step_fish (i : Z) (st : Z * Z) : Z * Z :=
  let '(state, timer) := st in
  let timer := (timer + 1)%Z in
  if (0 <? state)%Z then
    let state := (state + 1)%Z in
    if (40 <? state)%Z then (0, 0)%Z else (state, timer)
  else if (180 + i * 50 <? timer)%Z then (1%Z, timer)
  else (state, timer).

(** [for i in range(len(fish_positions))], walking both lists from index
    [i]. *)
Fixpoint step_fishes (i : Z) (states timers : list Z) : list Z * list Z :=
  match states, timers with
  | s :: ss, t :: ts =>
      let '(s', t') := step_fish i (s, t) in
      let '(ss', ts') := step_fishes (i + 1) ss ts in
      (s' :: ss', t' :: ts')
  | _, _ => (states, timers)
  end.

(** The deer block: both move with the shared direction, then the first
    deer's position alone decides whether the direction flips. *)
Definition step_deer (d : T * T * Z) : T * T * Z :=
  let '(d1, d2, dir) := d in
  let d1 := add d1 (mul (lit 3 10) (of_Z dir)) in
  let d2 := add d2 (mul (lit 25 100) (of_Z dir)) in
  if gtb d1 (of_Z 450) || ltb d1 (of_Z 280) then (d1, d2, (dir * -1)%Z)
  else (d1, d2, dir).

(** "Update animations": one pass over the body of the frame loop up to the
    drawing. *)
Definition update (s : SceneState) : SceneState :=
  let '(states, timers) := step_fishes 0 (fish_jump_states s) (fish_timers s) in
  let '(d1, d2, dir) := step_deer (deer1_x s, deer2_x s, deer_direction s) in
  {| bus_x := step_bus (bus_x s);
     bus2_x := step_bus2 (bus2_x s);
     kayak1_x := step_kayak1 (kayak1_x s);
     kayak2_x := step_kayak2 (kayak2_x s);
     kayak3_x := step_kayak3 (kayak3_x s);
     plane_x := step_plane (plane_x s);
     fish_jump_states := states;
     fish_timers := timers;
     deer1_x := d1;
     deer2_x := d2;
     deer_direction := dir;
     cloud_offset := step_cloud (cloud_offset s) |}.

(** [n] applications of a step. *)
Fixpoint iter {A : Type} (n : nat) (f : A -> A) (a : A) : A :=
  match n with
  | O => a
  | S k => f (iter k f a)
  end.

(** The state after [n] ticks. *)
Definition run (n : nat) (s : SceneState) : SceneState := iter n update s.

(** *** Clouds *)

(** The position of a cloud cluster: [base + offset * factor], moved left by
    [WINDOW_WIDTH + 200] once it passes [WINDOW_WIDTH + 100]. *)
Definition cluster_x (c_x : T) : T :=
  if gtb c_x (of_Z (WINDOW_WIDTH + 100)) then sub c_x (of_Z (WINDOW_WIDTH + 200))
  else c_x.

Definition c1_x (offset : T) : T := cluster_x (add (of_Z 150) offset).
Definition c2_x (offset : T) : T := cluster_x (add (of_Z 420) (mul offset (lit 8 10))).
Definition c3_x (offset : T) : T := cluster_x (add (of_Z 750) (mul offset (lit 12 10))).
Definition c4_x (offset : T) : T := cluster_x (add (of_Z 320) (mul offset (lit 6 10))).

(** A call [draw_circle(cx, cy, radius, color)]. *)
Record circle_call := { call_cx : T; call_cy : T; call_radius : T }.

Definition circle (cx cy radius : T) : circle_call :=
  {| call_cx := cx; call_cy := cy; call_radius := radius |}.

(** The [draw_circle] calls of [draw_clouds], all in the colour
    [(1.0, 1.0, 1.0, 0.4)]. *)
Definition draw_clouds (offset : T) : list circle_call :=
  let z := of_Z in
  let c1 := c1_x offset in
  let c2 := c2_x offset in
  let c3 := c3_x offset in
  let c4 := c4_x offset in
  [ circle c1 (z 520) (z 18); circle (add c1 (z 20)) (z 525) (z 20);
    circle (add c1 (z 40)) (z 520) (z 16); circle (add c1 (z 20)) (z 515) (z 15);
    circle c2 (z 540) (z 15); circle (add c2 (z 18)) (z 543) (z 18);
    circle (add c2 (z 35)) (z 540) (z 14);
    circle c3 (z 550) (z 12); circle (add c3 (z 15)) (z 552) (z 14);
    circle (add c3 (z 28)) (z 550) (z 11);
    circle c4 (z 480) (z 16); circle (add c4 (z 20)) (z 483) (z 19);
    circle (add c4 (z 38)) (z 480) (z 15) ].

End Update.

Arguments SceneState T : clear implicits.
Arguments circle_call T : clear implicits.

(** *** Jumping fish *)

Definition fish_positions : list (Z * Z) :=
  [(100, 80); (300, 60); (600, 90); (850, 70)]%Z.

(** [jump_height = 35 * sin(progress * pi)] with [progress = state / 40.0]. *)
Definition jump_height (state : Z) : R :=
  (35 * sin (IZR state / 40 * PI))%R.

(** [state in [1, 2, 3, 37, 38, 39, 40]]. *)
Definition splash_frame (state : Z) : bool :=
  existsb (Z.eqb state) [1; 2; 3; 37; 38; 39; 40]%Z.

(** What [draw_jumping_fish] calls for one fish. *)
Inductive fish_call :=
| call_draw_fish (i : nat) (x y : Z) (height : R)
| call_splash (cx cy radius : Z).

Definition draw_one_fish (i : nat) (pos : Z * Z) (state : Z) : list fish_call :=
  let '(fx, fy) := pos in
  if (0 <? state)%Z then
    call_draw_fish i fx fy (jump_height state)
      :: (if splash_frame state then
            [ call_splash (fx + 10) (fy + 2) 4; call_splash (fx + 4) fy 3;
              call_splash (fx + 16) fy 3 ]
          else [])
  else [].

(** [for i, (fx, fy) in enumerate(fish_positions)]. *)
Fixpoint draw_fishes (i : nat) (positions : list (Z * Z)) (states : list Z)
  : list fish_call :=
  match positions, states with
  | pos :: ps, st :: sts => draw_one_fish i pos st ++ draw_fishes (S i) ps sts
  | _, _ => []
  end.

Definition draw_jumping_fish (states : list Z) : list fish_call :=
  draw_fishes 0 fish_positions states.

End Actors.

(* ------------------------------------------------------------------ *)
(** ** Frame loop *)

Module FrameLoop.

Import Actors.

Inductive key := K_ESCAPE | K_q | K_other.

(** What [pygame.event.get()] hands over. *)
Inductive event :=
| QUIT
| KEYDOWN (k : key)
| OTHER.

(** What a pass of the loop does to the outside, in order. *)
Inductive effect (T : Type) :=
| gl_clear
| gl_load_identity
| draw_static_scene (s : SceneState T)
| draw_dynamic_scene (s : SceneState T)
| display_flip
| clock_tick (fps : Z)
| pygame_quit
| sys_exit.

Arguments gl_clear {T}.
Arguments gl_load_identity {T}.
Arguments display_flip {T}.
Arguments clock_tick {T} fps.
Arguments pygame_quit {T}.
Arguments sys_exit {T}.

(** One event of the [for event in pygame.event.get()] loop. *)
Definition handle_event (running : bool) (e : event) : bool :=
  match e with
  | QUIT => false
  | KEYDOWN K_ESCAPE => false
  | KEYDOWN K_q => false
  | _ => running
  end.

Definition handle_events (events : list event) (running : bool) : bool :=
  fold_left handle_event events running.

Section Loop.

Context {T : Type} `{PyFloat T}.

(** One pass through the body of [while running:]. *)
Definition frame (events : list event) (s : SceneState T)
  : bool * SceneState T * list (effect T) :=
  let running := handle_events events true in
  let s' := update s in
  (running, s',
   [ gl_clear; gl_load_identity; draw_static_scene s'; draw_dynamic_scene s';
     display_flip; clock_tick 60 ]).

(** [main] from the loop on, fed the events of each pass.  The result is
    whether the loop is still running when the input ends, the state, and
    the effects so far. *)
Fixpoint main_loop (inputs : list (list event)) (running : bool)
    (s : SceneState T) : bool * SceneState T * list (effect T) :=
  if running then
    match inputs with
    | [] => (true, s, [])
    | events :: rest =>
        let '(running', s', fx) := frame events s in
        let '(r, s'', fx') := main_loop rest running' s' in
        (r, s'', fx ++ fx')
    end
  else (false, s, [pygame_quit; sys_exit]).

End Loop.

(** Some event of the pass asks to stop. *)
Definition quit_requested (events : list event) : bool :=
  existsb (fun e => match e with
                    | QUIT | KEYDOWN K_ESCAPE | KEYDOWN K_q => true
                    | _ => false
                    end) events.

End FrameLoop.

(* ------------------------------------------------------------------ *)
(** ** Rectangles, polygons and the block-letter text *)

Module Shapes.

Import PyNum GL.
Local Open Scope Q_scope.

(** [draw_rect(x1, y1, x2, y2, color)] with an RGB colour [(r, g, b)]. *)
Definition draw_rect (x1 y1 x2 y2 r g b : Q) : list (cmd Q) :=
  [ glColor3f r g b; glBegin GL_QUADS;
    glVertex2f x1 y1; glVertex2f x2 y1; glVertex2f x2 y2; glVertex2f x1 y2;
    glEnd ].

(** [draw_polygon(points, color)] with an RGB colour [(r, g, b)]. *)
Definition draw_polygon (points : list (Q * Q)) (r g b : Q) : list (cmd Q) :=
  [glColor3f r g b; glBegin GL_POLYGON]
    ++ map (fun p => glVertex2f (fst p) (snd p)) points
    ++ [glEnd].

Local Open Scope char_scope.

(** The table [letters] of [draw_text]: seven rows of five cells, top row
    first. *)
Definition letters (c : ascii) : option (list (list Z)) :=
  match c with
  | "D" => Some [ [1; 1; 1; 1; 0]; [1; 0; 0; 0; 1]; [1; 0; 0; 0; 1];
                  [1; 0; 0; 0; 1]; [1; 0; 0; 0; 1]; [1; 0; 0; 0; 1];
                  [1; 1; 1; 1; 0] ]%Z
  | "I" => Some [ [1; 1; 1; 1; 1]; [0; 0; 1; 0; 0]; [0; 0; 1; 0; 0];
                  [0; 0; 1; 0; 0]; [0; 0; 1; 0; 0]; [0; 0; 1; 0; 0];
                  [1; 1; 1; 1; 1] ]%Z
  | "U" => Some [ [1; 0; 0; 0; 1]; [1; 0; 0; 0; 1]; [1; 0; 0; 0; 1];
                  [1; 0; 0; 0; 1]; [1; 0; 0; 0; 1]; [1; 0; 0; 0; 1];
                  [0; 1; 1; 1; 0] ]%Z
  | _ => None
  end.

(** [for row in range(7): for col in range(5): if pattern[row][col]: ...]. *)
Definition draw_pattern (pattern : list (list Z)) (x y scale offset_x : Q)
  : list (cmd Q) :=
  flat_map (fun row : nat =>
    flat_map (fun col : nat =>
      if (nth col (nth row pattern []) 0 =? 0)%Z then []
      else
        let px := x + offset_x + inject_Z (Z.of_nat col) * 2 * scale in
        let py := y + inject_Z (6 - Z.of_nat row) * 2 * scale in
        draw_rect px py (px + (15 # 10) * scale) (py + (15 # 10) * scale) 1 1 1)
      (seq 0 5))
    (seq 0 7).

(** The loop [for char in text] of [draw_text]. *)
Fixpoint text_loop (s : string) (x y scale offset_x : Q) : list (cmd Q) :=
  match s with
  | EmptyString => []
  | String char t =>
      match letters char with
      | Some pattern =>
          draw_pattern pattern x y scale offset_x
            ++ text_loop t x y scale (offset_x + 12 * scale)
      | None =>
          if Ascii.eqb char " " then text_loop t x y scale (offset_x + 8 * scale)
          else text_loop t x y scale offset_x
      end
  end.

(** [draw_text(text, x, y, scale)]. *)
Definition draw_text (text : string) (x y scale : Q) : list (cmd Q) :=
  text_loop text x y scale 0.

End Shapes.

Module DDAFacts.
Import PyNum GL Rasterizer.
Local Open Scope Q_scope.

#[export] Instance py_round_comp : Proper (Qeq ==> eq) py_round.
Proof.
  intros x y H. unfold py_round.
  assert (Hf : Qfloor x = Qfloor y) by (apply Qfloor_comp; exact H).
  rewrite Hf.
  assert (Hc : Qcompare (x - inject_Z (Qfloor y)) (1 # 2)
               = Qcompare (y - inject_Z (Qfloor y)) (1 # 2)).
  { apply Qcompare_comp; [rewrite H; reflexivity | reflexivity]. }
  rewrite Hc. reflexivity.
Qed.

Lemma py_round_Z (z : Z) : py_round (inject_Z z) = z.
Proof.
  unfold py_round. rewrite Qfloor_Z.
  assert (Hc : Qcompare (inject_Z z - inject_Z z) (1 # 2) = Lt).
  { apply Qlt_alt. setoid_replace (inject_Z z - inject_Z z) with 0 by ring.
    reflexivity. }
  rewrite Hc. reflexivity.
Qed.

Lemma py_int_floor (x : Q) : 0 <= x -> py_int x = Qfloor x.
Proof.
  destruct x as [n d]. unfold Qle, py_int, Qfloor. simpl. intros H.
  apply Z.quot_div_nonneg; lia.
Qed.

Lemma py_int_trunc (x : Q) :
  0 <= x -> (0 <= py_int x)%Z /\ inject_Z (py_int x) <= x /\ x < inject_Z (py_int x) + 1.
Proof.
  intros H. rewrite (py_int_floor H). split; [|split].
  - change 0%Z with (Qfloor 0). apply Qfloor_resp_le. exact H.
  - apply Qfloor_le.
  - pose proof (Qlt_floor x) as L. rewrite inject_Z_plus in L. exact L.
Qed.

Lemma py_max_ge_0 (a b : Q) : 0 <= a -> 0 <= py_max a b.
Proof.
  intros Ha. unfold py_max, Qltb.
  destruct (Qle_bool b a) eqn:E; simpl; [exact Ha|].
  assert (N : ~ b <= a) by (rewrite <- Qle_bool_iff; congruence).
  apply Qnot_le_lt in N. apply Qlt_le_weak. eapply Qle_lt_trans; eassumption.
Qed.

Lemma dda_steps_trunc (x1 y1 x2 y2 : Q) :
  let m := py_max (py_abs (x2 - x1)) (py_abs (y2 - y1)) in
  (0 <= dda_steps x1 y1 x2 y2)%Z
  /\ inject_Z (dda_steps x1 y1 x2 y2) <= m
  /\ m < inject_Z (dda_steps x1 y1 x2 y2) + 1.
Proof.
  intros m. unfold dda_steps. apply py_int_trunc.
  apply py_max_ge_0. apply Qabs_nonneg.
Qed.

(** The [k]-th point the loop plots: the start advanced [k] times, rounded. *)
Definition dda_point (x_inc y_inc x y : Q) (k : nat) : Q * Q :=
  (inject_Z (py_round (x + inject_Z (Z.of_nat k) * x_inc)),
   inject_Z (py_round (y + inject_Z (Z.of_nat k) * y_inc))).

Lemma dda_loop_vertices (n : nat) (x_inc y_inc : Q) :
  forall x y,
    vertices (dda_loop n x_inc y_inc x y)
    = map (dda_point x_inc y_inc x y) (seq 0 n).
Proof.
  induction n as [|n IH]; intros x y; [reflexivity|].
  cbn [dda_loop vertices seq map]. f_equal.
  - unfold dda_point. f_equal; f_equal; apply py_round_comp; simpl; ring.
  - rewrite IH. rewrite <- seq_shift. rewrite map_map.
    apply map_ext. intros k. unfold dda_point.
    f_equal; f_equal; apply py_round_comp;
      rewrite Nat2Z.inj_succ; unfold Z.succ; rewrite inject_Z_plus; ring.
Qed.

Lemma vertices_app {N : Type} (l1 l2 : list (cmd N)) :
  vertices (l1 ++ l2) = vertices l1 ++ vertices l2.
Proof.
  induction l1 as [|c l1 IH]; [reflexivity|].
  destruct c; simpl; rewrite IH; reflexivity.
Qed.

Lemma draw_line_dda_vertices (x1 y1 x2 y2 r g b : Q) :
  let steps := dda_steps x1 y1 x2 y2 in
  vertices (draw_line_dda x1 y1 x2 y2 r g b)
  = if (steps =? 0)%Z then [(x1, y1)]
    else map (dda_point ((x2 - x1) / inject_Z steps) ((y2 - y1) / inject_Z steps) x1 y1)
             (seq 0 (Z.to_nat (steps + 1))).
Proof.
  intros steps. unfold draw_line_dda. fold (dda_steps x1 y1 x2 y2). fold steps.
  rewrite !vertices_app. cbn [vertices app]. rewrite app_nil_r.
  destruct (steps =? 0)%Z; [reflexivity|].
  apply dda_loop_vertices.
Qed.

Lemma dda_steps_int (a1 b1 a2 b2 : Z) :
  dda_steps (inject_Z a1) (inject_Z b1) (inject_Z a2) (inject_Z b2)
  = Z.max (Z.abs (a2 - a1)) (Z.abs (b2 - b1)).
Proof.
  unfold dda_steps, py_max, Qltb, Qle_bool, py_abs, py_int. simpl.
  destruct (Z.leb_spec (Z.abs (b2 * 1 + - b1 * 1) * 1)
                       (Z.abs (a2 * 1 + - a1 * 1) * 1)); simpl;
    rewrite Z.quot_1_r; lia.
Qed.

Lemma unit_increment (a1 a2 steps : Z) :
  steps = Z.abs (a2 - a1) -> steps <> 0%Z ->
  (inject_Z a2 - inject_Z a1) / inject_Z steps == inject_Z (Z.sgn (a2 - a1)).
Proof.
  intros -> Hs. unfold Qminus. rewrite <- inject_Z_opp, <- inject_Z_plus.
  change (a2 + - a1)%Z with (a2 - a1)%Z.
  destruct (a2 - a1)%Z as [|p|p]; [exfalso; apply Hs; reflexivity| |];
    unfold Qdiv, Qinv, Qmult, Qeq; simpl; lia.
Qed.

Lemma round_unit_walk (a sg : Z) (inc : Q) (k : nat) :
  inc == inject_Z sg ->
  py_round (inject_Z a + inject_Z (Z.of_nat k) * inc) = (a + Z.of_nat k * sg)%Z.
Proof.
  intros H. rewrite <- (py_round_Z (a + Z.of_nat k * sg)).
  apply py_round_comp. rewrite H, inject_Z_plus, inject_Z_mult. reflexivity.
Qed.

(** The coordinate of a point along the dominant axis of a line: [y] when
    [|dy|] is strictly the larger difference, [x] otherwise. *)
Definition dominant (x1 y1 x2 y2 : Q) (p : Q * Q) : Q :=
  if Qltb (py_abs (x2 - x1)) (py_abs (y2 - y1)) then snd p else fst p.

Lemma dominant_int (a1 b1 a2 b2 : Z) (p : Q * Q) :
  dominant (inject_Z a1) (inject_Z b1) (inject_Z a2) (inject_Z b2) p
  = if (Z.abs (a2 - a1) <? Z.abs (b2 - b1))%Z then snd p else fst p.
Proof.
  unfold dominant, Qltb, Qle_bool, py_abs. simpl.
  destruct (Z.leb_spec (Z.abs (b2 * 1 + - b1 * 1) * 1)
                       (Z.abs (a2 * 1 + - a1 * 1) * 1));
    destruct (Z.ltb_spec (Z.abs (a2 - a1)) (Z.abs (b2 - b1))); simpl;
    try reflexivity; lia.
Qed.

Lemma Qabs_sgn_step (a sg : Z) (k : nat) :
  Z.abs sg = 1%Z ->
  Qabs (inject_Z (a + Z.of_nat (S k) * sg) - inject_Z (a + Z.of_nat k * sg)) == 1.
Proof.
  intros H. unfold Qminus. rewrite <- inject_Z_opp, <- inject_Z_plus.
  replace (a + Z.of_nat (S k) * sg + - (a + Z.of_nat k * sg))%Z with sg by lia.
  unfold Qabs, inject_Z. rewrite H. reflexivity.
Qed.

Lemma dda_int_no_gap (a1 b1 a2 b2 : Z) (r g b : Q) (k : nat) :
  let x1 := inject_Z a1 in let y1 := inject_Z b1 in
  let x2 := inject_Z a2 in let y2 := inject_Z b2 in
  let vs := vertices (draw_line_dda x1 y1 x2 y2 r g b) in
  (k < Z.to_nat (Z.max (Z.abs (a2 - a1)) (Z.abs (b2 - b1))))%nat ->
  Qabs (dominant x1 y1 x2 y2 (nth (S k) vs (0, 0))
        - dominant x1 y1 x2 y2 (nth k vs (0, 0))) == 1.
Proof.
  intros x1 y1 x2 y2 vs Hk. subst vs x1 y1 x2 y2.
  rewrite draw_line_dda_vertices. cbv zeta. rewrite dda_steps_int.
  set (n := Z.max (Z.abs (a2 - a1)) (Z.abs (b2 - b1))) in *.
  assert (Hn : (0 < n)%Z) by lia.
  destruct (Z.eqb_spec n 0) as [E|_]; [lia|].
  set (f := dda_point _ _ _ _).
  assert (Hnth : forall j, (j <= Z.to_nat n)%nat ->
                 nth j (map f (seq 0 (Z.to_nat (n + 1)))) (0, 0) = f j).
  { intros j Hj. rewrite (nth_indep _ (0, 0) (f 0%nat)) by (rewrite length_map, length_seq; lia).
    rewrite map_nth, seq_nth by lia. reflexivity. }
  rewrite !Hnth by lia. rewrite !dominant_int.
  subst f. unfold dda_point. cbn [fst snd].
  destruct (Z.ltb_spec (Z.abs (a2 - a1)) (Z.abs (b2 - b1))) as [L|L].
  - assert (En : n = Z.abs (b2 - b1)) by lia.
    rewrite !(@round_unit_walk b1 (Z.sgn (b2 - b1))) by (apply unit_increment; lia).
    apply Qabs_sgn_step. lia.
  - assert (En : n = Z.abs (a2 - a1)) by lia.
    rewrite !(@round_unit_walk a1 (Z.sgn (a2 - a1))) by (apply unit_increment; lia).
    apply Qabs_sgn_step. lia.
Qed.

Lemma dda_int_length (a1 b1 a2 b2 : Z) (r g b : Q) :
  List.length (vertices (draw_line_dda (inject_Z a1) (inject_Z b1)
                                       (inject_Z a2) (inject_Z b2) r g b))
  = Z.to_nat (Z.max (Z.abs (a2 - a1)) (Z.abs (b2 - b1)) + 1).
Proof.
  rewrite draw_line_dda_vertices. cbv zeta. rewrite dda_steps_int.
  destruct (Z.eqb_spec (Z.max (Z.abs (a2 - a1)) (Z.abs (b2 - b1))) 0) as [E|E].
  - rewrite E. reflexivity.
  - rewrite length_map, length_seq. reflexivity.
Qed.




End DDAFacts.

Module MidpointFacts.
Import PyNum GL Rasterizer.

(** The loop on integers: one body execution moves [(x, y, d)] to the next
    state. *)
Definition mp_next (s : Z * Z * Z) : Z * Z * Z :=
  let '(x, y, d) := s in
  if (d <? 0)%Z then ((x + 1)%Z, y, (d + 2 * x + 3)%Z)
  else ((x + 1)%Z, (y - 1)%Z, (d + 2 * (x - y) + 5)%Z).

Fixpoint mp_iter (n : nat) (s : Z * Z * Z) : Z * Z * Z :=
  match n with
  | O => s
  | S k => mp_iter k (mp_next s)
  end.

(** The [(x, y)] pairs for which the loop body runs, in order. *)
Fixpoint mp_states (fuel : nat) (x y d : Z) : option (list (Z * Z)) :=
  match fuel with
  | O => None
  | S f =>
      if (x <=? y)%Z then
        let '(x', y', d') := mp_next (x, y, d) in
        option_map (cons (x, y)) (mp_states f x' y' d')
      else Some []
  end.

(** The eight images of an offset under the symmetries of the square. *)
Definition octant_images (o : Z * Z) : list (Z * Z) :=
  let '(a, b) := o in
  [ (a, b); (- a, b); (a, - b); (- a, - b);
    (b, a); (- b, a); (b, - a); (- b, - a) ]%Z.

Definition translate (cx cy : Q) (o : Z * Z) : Q * Q :=
  (cx + inject_Z (fst o), cy + inject_Z (snd o))%Q.

(** Squared distance from the centre minus squared radius. *)
Definition err (r x y : Z) : Z := (x * x + y * y - r * r)%Z.

Local Open Scope Z_scope.

Lemma Qle_bool_inject (x y : Z) : Qle_bool (inject_Z x) (inject_Z y) = (x <=? y).
Proof. unfold Qle_bool. simpl. rewrite !Z.mul_1_r. reflexivity. Qed.

Lemma Qltb_inject_0 (d : Z) : Qltb (inject_Z d) 0 = (d <? 0).
Proof.
  unfold Qltb, Qle_bool. simpl. rewrite Z.mul_1_r.
  destruct (Z.leb_spec 0 d), (Z.ltb_spec d 0); simpl; try reflexivity; lia.
Qed.

Lemma inject_d_lt (d x : Z) :
  (inject_Z d + 2 * inject_Z x + 3)%Q = inject_Z (d + 2 * x + 3).
Proof. cbv [Qplus Qmult Qopp Qminus inject_Z Qnum Qden Pos.mul]. f_equal. lia. Qed.

Lemma inject_d_ge (d x y : Z) :
  (inject_Z d + 2 * (inject_Z x - inject_Z y) + 5)%Q
  = inject_Z (d + 2 * (x - y) + 5).
Proof. cbv [Qplus Qmult Qopp Qminus inject_Z Qnum Qden Pos.mul]. f_equal. lia. Qed.

Lemma inject_pred (y : Z) : (inject_Z y - 1)%Q = inject_Z (y - 1).
Proof. cbv [Qplus Qmult Qopp Qminus inject_Z Qnum Qden Pos.mul]. f_equal. lia. Qed.

Lemma plot_circle_points_vertices (cx cy : Q) (x y : Z) :
  vertices (plot_circle_points cx cy (inject_Z x) (inject_Z y))
  = map (translate cx cy) (octant_images (x, y)).
Proof. reflexivity. Qed.

(** The rational loop at integer [y] and [d] is the integer loop. *)
Lemma midpoint_loop_int (fuel : nat) (cx cy : Q) :
  forall x y d,
    option_map (@vertices Q) (midpoint_loop fuel cx cy x (inject_Z y) (inject_Z d))
    = option_map (flat_map (fun o => map (translate cx cy) (octant_images o)))
                 (mp_states fuel x y d).
Proof.
  induction fuel as [|f IH]; intros x y d; [reflexivity|].
  cbn [midpoint_loop mp_states mp_next].
  rewrite Qle_bool_inject, Qltb_inject_0.
  destruct (x <=? y); [|reflexivity].
  destruct (d <? 0).
  - rewrite inject_d_lt. specialize (IH (x + 1) y (d + 2 * x + 3)).
    destruct (midpoint_loop f cx cy (x + 1) (inject_Z y) _),
             (mp_states f (x + 1) y _); simpl in *; try congruence.
    injection IH as IH. rewrite IH. reflexivity.
  - rewrite inject_d_ge, inject_pred.
    specialize (IH (x + 1) (y - 1) (d + 2 * (x - y) + 5)).
    destruct (midpoint_loop f cx cy (x + 1) (inject_Z (y - 1)) _),
             (mp_states f (x + 1) (y - 1) _); simpl in *; try congruence.
    injection IH as IH. rewrite IH. reflexivity.
Qed.

(** Enough fuel: the loop leaves through its condition. *)
Lemma mp_states_total (fuel : nat) :
  forall x y d, (Z.to_nat (y - x + 1) < fuel)%nat ->
    exists l, mp_states fuel x y d = Some l.
Proof.
  induction fuel as [|f IH]; intros x y d H; [lia|].
  cbn [mp_states mp_next].
  destruct (Z.leb_spec x y); [|eexists; reflexivity].
  destruct (d <? 0).
  - destruct (IH (x + 1) y (d + 2 * x + 3)) as [l E]; [lia|].
    rewrite E. eexists; reflexivity.
  - destruct (IH (x + 1) (y - 1) (d + 2 * (x - y) + 5)) as [l E]; [lia|].
    rewrite E. eexists; reflexivity.
Qed.

(** The loop body ran on exactly the first [length l] states, each with
    [x <= y]; the state after them has [x > y]. *)
Lemma mp_states_trace (fuel : nat) :
  forall x y d l, mp_states fuel x y d = Some l ->
    (forall k, (k < List.length l)%nat ->
       let '(xk, yk, _) := mp_iter k (x, y, d) in
       xk <= yk /\ nth k l (0, 0) = (xk, yk))
    /\ (let '(xn, yn, _) := mp_iter (List.length l) (x, y, d) in yn < xn).
Proof.
  induction fuel as [|f IH]; intros x y d l H; [discriminate|].
  cbn [mp_states] in H.
  destruct (Z.leb_spec x y) as [L|L].
  - destruct (mp_next (x, y, d)) as [[x' y'] d'] eqn:E.
    destruct (mp_states f x' y' d') as [l'|] eqn:E'; [|discriminate].
    injection H as <-. destruct (IH _ _ _ _ E') as [A B]. split.
    + intros [|k] Hk; cbn [mp_iter nth].
      * split; [exact L|reflexivity].
      * rewrite E. apply A. simpl in Hk. lia.
    + cbn [List.length mp_iter]. rewrite E. exact B.
  - injection H as <-. split; [simpl; intros; lia|]. simpl. exact L.
Qed.

(** Loop invariant relating the decision variable to the circle equation. *)
Definition mp_inv (r x y d : Z) : Prop :=
  0 <= x /\ y <= r /\ d = err r x y + 2 * x + 1 - y
  /\ - y <= err r x y /\ (y = r -> 0 <= err r x y)
  /\ (x <= y -> err r x y <= r).

Lemma err_step_x (r x y : Z) : err r (x + 1) y = err r x y + 2 * x + 1.
Proof. unfold err. ring. Qed.

Lemma err_step_xy (r x y : Z) :
  err r (x + 1) (y - 1) = err r x y + 2 * x + 2 - 2 * y.
Proof. unfold err. ring. Qed.

Lemma mp_inv_init (r : Z) : 0 <= r -> mp_inv r 0 r (1 - r).
Proof.
  intros H. unfold mp_inv.
  assert (E : err r 0 r = 0) by (unfold err; ring).
  rewrite E. lia.
Qed.

Lemma mp_inv_next (r x y d : Z) :
  mp_inv r x y d -> x <= y ->
  let '(x', y', d') := mp_next (x, y, d) in mp_inv r x' y' d'.
Proof.
  unfold mp_inv, mp_next. intros (Hx & Hy & Hd & Hlo & Htop & Hhi) L.
  specialize (Hhi L).
  destruct (Z.ltb_spec d 0).
  - rewrite err_step_x. lia.
  - rewrite err_step_xy. lia.
Qed.

Lemma mp_states_inv (r : Z) (fuel : nat) :
  forall x y d l, mp_inv r x y d -> mp_states fuel x y d = Some l ->
    forall a b, In (a, b) l ->
      0 <= a <= b /\ b <= r /\ - b <= err r a b <= r /\ (b = r -> 0 <= err r a b).
Proof.
  induction fuel as [|f IH]; intros x y d l I H a b Hin; [discriminate|].
  cbn [mp_states] in H.
  destruct (Z.leb_spec x y) as [L|L].
  - pose proof (mp_inv_next I L) as I'.
    destruct (mp_next (x, y, d)) as [[x' y'] d'].
    destruct (mp_states f x' y' d') as [l'|] eqn:E'; [|discriminate].
    injection H as <-. destruct Hin as [Heq|Hin].
    + injection Heq as <- <-. unfold mp_inv in I. lia.
    + eapply IH; eassumption.
  - injection H as <-. destruct Hin.
Qed.

(** Two vertices with equal coordinates. *)
Definition veq (p q : Q * Q) : Prop := (fst p == fst q /\ snd p == snd q)%Q.

(** The images of a point under the eight symmetries of the square centred
    at [(cx, cy)]: sign changes of the two offsets and their exchange. *)
Definition reflections (cx cy : Q) (p : Q * Q) : list (Q * Q) :=
  let u := (fst p - cx)%Q in
  let v := (snd p - cy)%Q in
  [ (cx + u, cy + v); (cx - u, cy + v); (cx + u, cy - v); (cx - u, cy - v);
    (cx + v, cy + u); (cx - v, cy + u); (cx + v, cy - u); (cx - v, cy - u) ]%Q.

(** Squared distance of a vertex from the centre. *)
Definition dist2 (cx cy : Q) (p : Q * Q) : Q :=
  ((fst p - cx) * (fst p - cx) + (snd p - cy) * (snd p - cy))%Q.

Definition plotted (cx cy : Q) (l : list (Z * Z)) : list (Q * Q) :=
  flat_map (fun o => map (translate cx cy) (octant_images o)) l.

Lemma plotted_in (cx cy : Q) (l : list (Z * Z)) (p : Q * Q) :
  In p (plotted cx cy l) ->
  exists a b u v, In (a, b) l /\ In (u, v) (octant_images (a, b))
                  /\ p = translate cx cy (u, v).
Proof.
  unfold plotted. rewrite in_flat_map. intros [[a b] [Hl Hp]].
  apply in_map_iff in Hp. destruct Hp as [[u v] [<- Hi]].
  exists a, b, u, v. auto.
Qed.

Lemma in_plotted (cx cy : Q) (l : list (Z * Z)) (a b u v : Z) :
  In (a, b) l -> In (u, v) (octant_images (a, b)) ->
  In (translate cx cy (u, v)) (plotted cx cy l).
Proof.
  intros Hl Hi. unfold plotted. apply in_flat_map. exists (a, b). split; [exact Hl|].
  apply in_map. exact Hi.
Qed.

Ltac image_candidate cx cy l a b Hl u v :=
  exists (translate cx cy (u, v));
  split;
  [ apply (@in_plotted cx cy l a b u v Hl); simpl; tauto
  | split; cbn [translate fst snd]; rewrite ?inject_Z_opp; ring ].

Ltac find_image cx cy l a b Hl :=
  first [ image_candidate cx cy l a b Hl a b
        | image_candidate cx cy l a b Hl (- a) b
        | image_candidate cx cy l a b Hl a (- b)
        | image_candidate cx cy l a b Hl (- a) (- b)
        | image_candidate cx cy l a b Hl b a
        | image_candidate cx cy l a b Hl (- b) a
        | image_candidate cx cy l a b Hl b (- a)
        | image_candidate cx cy l a b Hl (- b) (- a) ].

(** Whatever states the loop visits, the plotted set is closed under the
    eight reflections about the centre. *)
Lemma plotted_symmetric (cx cy : Q) (l : list (Z * Z)) (p q : Q * Q) :
  In p (plotted cx cy l) -> In q (reflections cx cy p) ->
  exists q', In q' (plotted cx cy l) /\ veq q q'.
Proof.
  intros Hp Hq. apply plotted_in in Hp.
  destruct Hp as (a & b & u & v & Hl & Hi & ->).
  unfold veq.
  cbn [octant_images In] in Hi.
  cbn [reflections translate fst snd In] in Hq.
  repeat (destruct Hi as [Hi|Hi]; [injection Hi as <- <-|]); [..|destruct Hi];
    repeat (destruct Hq as [Hq|Hq]; [subst q|]); try (destruct Hq);
    find_image cx cy l a b Hl.
Qed.

Lemma image_norm (a b u v : Z) :
  In (u, v) (octant_images (a, b)) -> u * u + v * v = a * a + b * b.
Proof.
  cbn [octant_images In]. intros H.
  repeat (destruct H as [H|H]; [injection H as <- <-; ring|]). destruct H.
Qed.

Lemma dist2_translate (cx cy : Q) (u v : Z) :
  (dist2 cx cy (translate cx cy (u, v)) == inject_Z (u * u + v * v))%Q.
Proof.
  unfold dist2, translate. cbn [fst snd].
  rewrite inject_Z_plus, !inject_Z_mult. ring.
Qed.

(** Visited states lie within one unit of the ideal circle. *)
Lemma plotted_outline (cx cy : Q) (r : Z) (l : list (Z * Z)) (p : Q * Q) :
  1 <= r ->
  (forall a b, In (a, b) l ->
     0 <= a <= b /\ b <= r /\ - b <= err r a b <= r /\ (b = r -> 0 <= err r a b)) ->
  In p (plotted cx cy l) ->
  (inject_Z ((r - 1) * (r - 1)) < dist2 cx cy p
   /\ dist2 cx cy p < inject_Z ((r + 1) * (r + 1)))%Q.
Proof.
  intros Hr Hinv Hp. apply plotted_in in Hp.
  destruct Hp as (a & b & u & v & Hl & Hi & ->).
  rewrite dist2_translate. rewrite <- !Zlt_Qlt.
  rewrite (image_norm Hi).
  specialize (Hinv a b Hl). unfold err in Hinv.
  destruct (Z.eq_dec b r) as [->|Hb]; lia.
Qed.

End MidpointFacts.

Module CircleFacts.
Import PyNum GL Rasterizer MidpointFacts.

Lemma vertices_wrap {N : Type} (c : color) (m : mode) (body : list (cmd N)) :
  vertices ([set_color c; glBegin m] ++ body ++ [glEnd]) = vertices body.
Proof.
  rewrite !DDAFacts.vertices_app. destruct c; simpl; apply app_nil_r.
Qed.

Lemma one_minus_inject (r : Z) : (1 - inject_Z r)%Q = inject_Z (1 - r).
Proof. cbv [Qplus Qmult Qopp Qminus inject_Z Qnum Qden Pos.mul]. f_equal. lia. Qed.

(** At an integer radius the outline branch returns, and plots exactly the
    images of the states the integer loop visits. *)
Lemma draw_circle_outline_int (cx cy : Q) (r : Z) (c : color) :
  exists cmds l,
    draw_circle_outline cx cy (inject_Z r) c = Some cmds
    /\ mp_states (S (Z.to_nat (r + 1))) 0 r (1 - r) = Some l
    /\ vertices cmds = plotted cx cy l.
Proof.
  destruct (@mp_states_total (S (Z.to_nat (r + 1))) 0 r (1 - r)) as [l El]; [lia|].
  pose proof (midpoint_loop_int (S (Z.to_nat (r + 1))) cx cy 0 r (1 - r)) as Hs.
  rewrite El in Hs. unfold draw_circle_outline, midpoint_fuel.
  rewrite Qfloor_Z, one_minus_inject.
  destruct (midpoint_loop _ cx cy 0 (inject_Z r) (inject_Z (1 - r))) as [body|];
    [|discriminate].
  simpl in Hs. injection Hs as Hs.
  eexists; exists l. split; [reflexivity|]. split; [exact El|].
  rewrite vertices_wrap. exact Hs.
Qed.

(** What the outline branch guarantees at centre [(cx, cy)], integer radius
    [r] and colour [c]: it returns a command list; the loop body ran on the
    states [mp_iter 0 .. mp_iter (n-1)] of the decision-variable recurrence
    started at [(0, r, 1 - r)], all with [x <= y], and stopped at the first
    state with [x > y]; every reflection of a plotted point about the centre
    is plotted; every plotted point lies strictly between the circles of
    radius [r - 1] and [r + 1]. *)
Definition outline_spec (cx cy : Q) (r : Z) (c : color) : Prop :=
  exists cmds l,
    draw_circle_outline cx cy (inject_Z r) c = Some cmds
    /\ vertices cmds = plotted cx cy l
    /\ (forall k, (k < List.length l)%nat ->
          let '(xk, yk, _) := mp_iter k (0, r, 1 - r)%Z in
          (xk <= yk)%Z /\ nth k l (0, 0)%Z = (xk, yk))
    /\ (let '(xn, yn, _) := mp_iter (List.length l) (0, r, 1 - r)%Z in (yn < xn)%Z)
    /\ (forall p q, In p (vertices cmds) -> In q (reflections cx cy p) ->
          exists q', In q' (vertices cmds) /\ veq q q')
    /\ (forall p, In p (vertices cmds) ->
          (inject_Z ((r - 1) * (r - 1)) < dist2 cx cy p
           /\ dist2 cx cy p < inject_Z ((r + 1) * (r + 1)))%Q).

(** C2.  For every centre and every integer radius [r >= 1], the outline
    branch of [draw_circle_midpoint] runs the loop [x = 0, y = r, d = 1 - r;
    while x <= y: plot 8 points; update d (and y); x += 1], stops exactly at
    the first state with [x > y], and what it plots is closed under the eight
    octant reflections about the centre and contains no interior point: every
    plotted point is farther than [r - 1] and nearer than [r + 1] from the
    centre. *)
Theorem midpoint_outline_symmetric_strict (cx cy : Q) (r : Z) (c : color) :
  (1 <= r)%Z -> outline_spec cx cy r c.
Proof.
  intros Hr. destruct (draw_circle_outline_int cx cy r c) as (cmds & l & E & El & V).
  exists cmds, l. split; [exact E|]. split; [exact V|].
  destruct (mp_states_trace _ _ _ _ El) as [A B].
  split; [exact A|]. split; [exact B|]. rewrite V. split.
  - intros p q. apply plotted_symmetric.
  - intros p. apply plotted_outline; [exact Hr|].
    eapply mp_states_inv; [apply mp_inv_init; lia|exact El].
Qed.

Lemma midpoint_outline_radius_5 :
  (1 <= 5)%Z /\ outline_spec 0 0 5 (RGB 0 0 0).
Proof.
  split; [lia|]. apply (@midpoint_outline_symmetric_strict 0 0 5 (RGB 0 0 0)). lia.
Defined.

(** The points plotted for radius 5 around the origin. *)
Example outline_radius_5_points :
  option_map (@vertices Q) (draw_circle_outline 0 0 5 (RGB 0 0 0))
  = Some (plotted 0 0 [(0, 5); (1, 5); (2, 5); (3, 4)]%Z).
Proof. reflexivity. Qed.

(** *** Non-positive radius *)

Lemma outline_negative_radius (cx cy radius : Q) (c : color) :
  (radius < 0)%Q ->
  draw_circle_outline cx cy radius c = Some [set_color c; glBegin GL_POINTS; glEnd].
Proof.
  intros H. unfold draw_circle_outline, midpoint_fuel. cbn [midpoint_loop].
  assert (E : Qle_bool (inject_Z 0) radius = false).
  { destruct (Qle_bool (inject_Z 0) radius) eqn:E; [|reflexivity].
    apply Qle_bool_iff in E. exfalso. exact (Qlt_not_le _ _ H E). }
  rewrite E. reflexivity.
Qed.

Lemma outline_zero_radius (cx cy radius : Q) (c : color) :
  (radius == 0)%Q ->
  exists cmds,
    draw_circle_outline cx cy radius c = Some cmds
    /\ List.length (vertices cmds) = 8%nat
    /\ forall p, In p (vertices cmds) -> veq p (cx, cy).
Proof.
  intros H. unfold draw_circle_outline, midpoint_fuel.
  assert (F : Qfloor radius = 0%Z) by (rewrite H; reflexivity).
  rewrite F. change (S (Z.to_nat (0 + 1))) with 2%nat. cbn [midpoint_loop].
  assert (E1 : Qle_bool (inject_Z 0) radius = true)
    by (apply Qle_bool_iff; rewrite H; apply Qle_refl).
  assert (E2 : Qltb (1 - radius) 0 = false).
  { unfold Qltb. apply negb_false_iff. apply Qle_bool_iff. rewrite H. discriminate. }
  assert (E3 : Qle_bool (inject_Z (0 + 1)) (radius - 1) = false).
  { destruct (Qle_bool (inject_Z (0 + 1)) (radius - 1)) eqn:E; [|reflexivity].
    apply Qle_bool_iff in E. rewrite H in E. exfalso. apply E. reflexivity. }
  rewrite E1, E2, E3. cbn [option_map].
  eexists. split; [reflexivity|]. rewrite vertices_wrap, app_nil_r.
  split; [reflexivity|].
  intros p Hp. cbn [plot_circle_points vertices In] in Hp. unfold veq.
  repeat (destruct Hp as [<-|Hp]; [cbn [fst snd]; split; rewrite ?H; ring|]).
  destruct Hp.
Qed.

Lemma vertices_cmd_Q2R (l : list (cmd Q)) :
  vertices (map cmd_Q2R l) = map (fun p => (Q2R (fst p), Q2R (snd p))) (vertices l).
Proof.
  induction l as [|x l IH]; [reflexivity|].
  destruct x; simpl; rewrite IH; reflexivity.
Qed.

(** The boundary sample [i] of the fan. *)
Definition fan_vertex (cx cy radius : R) (segments i : nat) : R * R :=
  (cx + radius * cos (2 * PI * INR i / INR segments),
   cy + radius * sin (2 * PI * INR i / INR segments))%R.

Lemma draw_circle_vertices (cx cy radius : R) (c : color) (segments : nat) :
  vertices (draw_circle cx cy radius c segments)
  = (cx, cy) :: map (fan_vertex cx cy radius segments) (seq 0 (segments + 1)).
Proof.
  unfold draw_circle. rewrite DDAFacts.vertices_app.
  replace (vertices [set_color c; glBegin GL_TRIANGLE_FAN; glVertex2f cx cy])
    with [(cx, cy)] by (destruct c; reflexivity).
  rewrite DDAFacts.vertices_app. cbn [vertices]. rewrite app_nil_r.
  cbn [app]. f_equal.
  induction (seq 0 (segments + 1)) as [|i l IH]; [reflexivity|].
  cbn [map vertices]. rewrite IH. reflexivity.
Qed.

Lemma fan_vertex_on_circle (cx cy radius : R) (segments i : nat) :
  let p := fan_vertex cx cy radius segments i in
  ((fst p - cx) * (fst p - cx) + (snd p - cy) * (snd p - cy) = radius * radius)%R.
Proof.
  cbn [fan_vertex fst snd]. set (a := (2 * PI * INR i / INR segments)%R).
  transitivity (radius * radius * (Rsqr (sin a) + Rsqr (cos a)))%R.
  - unfold Rsqr. ring.
  - rewrite sin2_cos2. ring.
Qed.

(** What the two branches do at a radius [radius <= 0]. *)
Definition nonpositive_radius_spec (cx cy radius : Q) (c : color) : Prop :=
  (exists pts,
      draw_circle_midpoint cx cy radius c false = Some pts
      /\ if Qltb radius 0 then vertices pts = []
         else List.length (vertices pts) = 8%nat
              /\ forall p, In p (vertices pts) -> p = (Q2R cx, Q2R cy))
  /\ (exists fan rim,
         draw_circle_midpoint cx cy radius c true = Some fan
         /\ vertices fan = (Q2R cx, Q2R cy) :: rim
         /\ List.length rim = 33%nat
         /\ forall p, In p rim ->
              ((fst p - Q2R cx) * (fst p - Q2R cx)
               + (snd p - Q2R cy) * (snd p - Q2R cy)
               = Q2R radius * Q2R radius)%R).

(** C5 (as the code has it).  For every centre, colour and radius [<= 0]
    neither branch fails.  The outline branch plots nothing for a negative
    radius and the eight points of its single loop pass, all on the centre,
    for radius 0.  The filled branch always emits its whole fan: the centre
    and 33 rim vertices at distance [|radius|] from it. *)
Theorem nonpositive_radius_circles (cx cy radius : Q) (c : color) :
  (radius <= 0)%Q -> nonpositive_radius_spec cx cy radius c.
Proof.
  intros Hr. split.
  - unfold draw_circle_midpoint. destruct (Qltb radius 0) eqn:E.
    + assert (L : (radius < 0)%Q).
      { unfold Qltb in E. apply negb_true_iff in E. apply Qnot_le_lt.
        rewrite <- Qle_bool_iff. congruence. }
      rewrite (outline_negative_radius cx cy c L). eexists. split; [reflexivity|].
      destruct c; reflexivity.
    + assert (Z0 : (radius == 0)%Q).
      { unfold Qltb in E. apply negb_false_iff, Qle_bool_iff in E.
        apply Qle_antisym; assumption. }
      destruct (outline_zero_radius cx cy c Z0) as (cmds & Ec & Len & All).
      rewrite Ec. eexists. split; [reflexivity|]. rewrite vertices_cmd_Q2R.
      split; [rewrite length_map; exact Len|].
      intros p Hp. apply in_map_iff in Hp. destruct Hp as (q & <- & Hq).
      destruct (All q Hq) as [A B]. cbn [fst snd] in A, B.
      rewrite (Qeq_eqR _ _ A), (Qeq_eqR _ _ B). reflexivity.
  - unfold draw_circle_midpoint. eexists. eexists.
    split; [reflexivity|]. split; [apply draw_circle_vertices|].
    split; [rewrite length_map, length_seq; reflexivity|].
    intros p Hp. apply in_map_iff in Hp. destruct Hp as (i & <- & _).
    apply fan_vertex_on_circle.
Qed.

Lemma nonpositive_radius_circles_at_0 :
  (0 <= 0)%Q /\ nonpositive_radius_spec 0 0 0 (RGB 0 0 0).
Proof.
  split; [apply Qle_refl|].
  apply (@nonpositive_radius_circles 0 0 0 (RGB 0 0 0)). apply Qle_refl.
Defined.

(** Radius 0 on the outline branch plots eight points, and radius -5 on the
    filled branch emits 34 vertices: neither draws nothing. *)
Lemma nonpositive_radius_still_draws :
  (exists pts, draw_circle_midpoint 0 0 0 (RGB 0 0 0) false = Some pts
               /\ List.length (vertices pts) = 8%nat)
  /\ (exists fan, draw_circle_midpoint 0 0 (-5) (RGB 0 0 0) true = Some fan
                  /\ List.length (vertices fan) = 34%nat).
Proof.
  split.
  - eexists. split; [reflexivity|]. reflexivity.
  - eexists. split; [reflexivity|]. rewrite draw_circle_vertices.
    cbn [List.length]. rewrite length_map, length_seq. reflexivity.
Qed.

End CircleFacts.

Module GlyphFacts.
Import PyNum GL Rasterizer Glyph.
Local Open Scope string_scope.

Lemma upper_char_idem (c : ascii) : upper_char (upper_char c) = upper_char c.
Proof. destruct c as [[] [] [] [] [] [] [] []]; reflexivity. Qed.

Lemma upper_idem (s : string) : upper (upper s) = upper s.
Proof.
  induction s as [|c t IH]; [reflexivity|].
  cbn [upper]. rewrite upper_char_idem, IH. reflexivity.
Qed.

Lemma upper_app (s1 s2 : string) : upper (s1 ++ s2) = upper s1 ++ upper s2.
Proof.
  induction s1 as [|c t IH]; [reflexivity|].
  cbn [upper append]. rewrite IH. reflexivity.
Qed.

(** A character that is neither in the table nor a space leaves the DDA
    loop as it found it. *)
Lemma text_dda_loop_skip (ch : ascii) (s1 s2 : string) (x y scale r g b sp : Q) :
  letter_lines ch = None -> ch <> " "%char ->
  forall off,
    text_dda_loop (s1 ++ String ch s2) x y scale r g b sp off
    = text_dda_loop (s1 ++ s2) x y scale r g b sp off.
Proof.
  intros Hn Hs. induction s1 as [|c t IH]; intros off.
  - cbn [append text_dda_loop]. rewrite Hn.
    destruct (Ascii.eqb_spec ch " "%char); [contradiction|reflexivity].
  - cbn [append text_dda_loop].
    destruct (letter_lines c); [rewrite IH; reflexivity|].
    destruct (Ascii.eqb c " "); apply IH.
Qed.

Lemma text_circle_loop_skip (ch : ascii) (s1 s2 : string) (x y scale : Q)
    (c : color) :
  letter_circles ch = None -> ch <> " "%char ->
  forall off,
    text_circle_loop (s1 ++ String ch s2) x y scale c off
    = text_circle_loop (s1 ++ s2) x y scale c off.
Proof.
  intros Hn Hs. induction s1 as [|c0 t IH]; intros off.
  - cbn [append text_circle_loop]. rewrite Hn.
    destruct (Ascii.eqb_spec ch " "%char); [contradiction|reflexivity].
  - cbn [append text_circle_loop].
    destruct (letter_circles c0); [rewrite IH; reflexivity|].
    destruct (Ascii.eqb c0 " "); apply IH.
Qed.

(** What both text strategies do with the case of their input. *)
Definition uppercasing_spec : Prop :=
  (forall text x y scale r g b sp,
      draw_text_dda text x y scale r g b sp
      = draw_text_dda (upper text) x y scale r g b sp)
  /\ (forall text x y scale c,
         draw_text_midpoint_circle text x y scale c
         = draw_text_midpoint_circle (upper text) x y scale c)
  /\ (forall ch s1 s2 x y scale r g b sp,
         letter_lines (upper_char ch) = None -> upper_char ch <> " "%char ->
         draw_text_dda (s1 ++ String ch s2) x y scale r g b sp
         = draw_text_dda (s1 ++ s2) x y scale r g b sp)
  /\ (forall ch s1 s2 x y scale c,
         letter_circles (upper_char ch) = None -> upper_char ch <> " "%char ->
         draw_text_midpoint_circle (s1 ++ String ch s2) x y scale c
         = draw_text_midpoint_circle (s1 ++ s2) x y scale c).



Lemma seq_draw_some {N : Type} (a b : option (list (cmd N))) (la lb : list (cmd N)) :
  a = Some la -> b = Some lb -> seq_draw a b = Some (la ++ lb)%list.
Proof. intros -> ->. reflexivity. Qed.

Lemma fan_length (cx cy radius : R) (c : color) (segments : nat) :
  List.length (vertices (draw_circle cx cy radius c segments)) = (segments + 2)%nat.
Proof.
  rewrite CircleFacts.draw_circle_vertices. cbn [List.length].
  rewrite length_map, length_seq. lia.
Qed.

(** A dot is four fans of 34 vertices. *)
Lemma bold_dot_vertices (px py radius : Q) (c : color) :
  exists l, bold_dot px py radius c = Some l
            /\ List.length (vertices l) = 136%nat.
Proof.
  unfold bold_dot, draw_circle_midpoint. eexists. split.
  - repeat (eapply seq_draw_some; [reflexivity|]). reflexivity.
  - rewrite !DDAFacts.vertices_app, !length_app, !fan_length. reflexivity.
Qed.

Lemma draw_letter_circles_vertices (circles : list (Z * Z * Z))
    (x y scale : Q) (c : color) (off : Q) :
  exists l, draw_letter_circles circles x y scale c off = Some l
            /\ List.length (vertices l) = (136 * List.length circles)%nat.
Proof.
  induction circles as [|[[cx cy] r] rest IH].
  - exists []. split; reflexivity.
  - destruct IH as (l & E & Len). cbn [draw_letter_circles].
    destruct (bold_dot_vertices (x + off + inject_Z cx * scale * 2)
                (y + inject_Z cy * scale * 2)
                (inject_Z r * scale * (18 # 10)) c) as (d & Ed & Ld).
    exists (d ++ l)%list. split; [apply seq_draw_some; assumption|].
    rewrite DDAFacts.vertices_app, length_app, Ld, Len. cbn [List.length]. lia.
Qed.


End GlyphFacts.

Module FrameLoopFacts.
Import Actors FrameLoop.

Lemma handle_events_false (events : list event) : handle_events events false = false.
Proof.
  unfold handle_events. induction events as [|e t IH]; [reflexivity|].
  cbn [fold_left]. destruct e as [|[]|]; exact IH.
Qed.

Lemma handle_events_quit (events : list event) (running : bool) :
  handle_events events running = running && negb (quit_requested events).
Proof.
  unfold handle_events. revert running.
  induction events as [|e t IH]; intros running.
  - cbn. destruct running; reflexivity.
  - cbn [fold_left quit_requested existsb]. rewrite IH.
    destruct e as [|[]|]; cbn [handle_event]; destruct running; reflexivity.
Qed.

Section Generic.

Context {T : Type} `{PyFloat T}.

(** What the loop does around a pass that sees a request to stop. *)
Definition quit_pass_spec : Prop :=
  forall (events : list event) (rest : list (list event)) (s : SceneState T),
    (quit_requested events = true ->
       main_loop (events :: rest) true s
       = (false, update s,
          [ gl_clear; gl_load_identity; draw_static_scene (update s);
            draw_dynamic_scene (update s); display_flip; clock_tick 60;
            pygame_quit; sys_exit ]))
    /\ (quit_requested events = false ->
          main_loop (events :: rest) true s
          = let '(r, s', fx) := main_loop rest true (update s) in
            (r, s',
             [ gl_clear; gl_load_identity; draw_static_scene (update s);
               draw_dynamic_scene (update s); display_flip; clock_tick 60 ] ++ fx)).

Lemma pass_with_or_without_quit : quit_pass_spec.
Proof.
  intros events rest s. split; intros Hq.
  - cbn [main_loop]. unfold frame. rewrite handle_events_quit, Hq. cbn [andb negb].
    destruct rest; reflexivity.
  - cbn [main_loop]. unfold frame. rewrite handle_events_quit, Hq. cbn [andb negb].
    destruct (main_loop rest true (update s)) as [[r s'] fx]. reflexivity.
Qed.

(** C9 (as the code has it).  A pass whose event poll sees QUIT, Escape or Q
    clears [running] but goes on through its actor update, clear, draw,
    present and pacing, once; the loop is left before the next pass, so the
    state is that of this last update and later input is never read.  A pass
    without such an event updates, draws and goes round again. *)
Theorem quit_takes_effect_after_the_pass : quit_pass_spec.
Proof.
  intros events rest s. split; intros Hq.
  - cbn [main_loop]. unfold frame. rewrite handle_events_quit, Hq. cbn [andb negb].
    destruct rest; reflexivity.
  - cbn [main_loop]. unfold frame. rewrite handle_events_quit, Hq. cbn [andb negb].
    destruct (main_loop rest true (update s)) as [[r s'] fx]. reflexivity.
Qed.

End Generic.

Lemma quit_takes_effect_after_the_pass_at_initial :
  quit_requested [OTHER; QUIT] = true
  /\ main_loop ([OTHER; QUIT] :: [[OTHER]]) true (initial (T := float))
     = (false, update initial,
        [ gl_clear; gl_load_identity; draw_static_scene (update initial);
          draw_dynamic_scene (update initial); display_flip; clock_tick 60;
          pygame_quit; sys_exit ]).
Proof.
  split; [reflexivity|].
  apply (proj1 (@quit_takes_effect_after_the_pass float _ [OTHER; QUIT] [[OTHER]] initial)).
  reflexivity.
Defined.

(** A pass that receives QUIT at the initial state still moves the first bus
    from -200 to -198.8, advances the cloud offset, and clears, draws and
    presents. *)
Lemma quit_pass_still_updates_and_draws :
  let '(running, s, fx) := main_loop [[QUIT]] true (initial (T := float)) in
  running = false
  /\ bus_x s = lit (-1988) 10 /\ bus_x s <> bus_x (initial (T := float))
  /\ cloud_offset s = lit 8 100
  /\ fx = [ gl_clear; gl_load_identity; draw_static_scene s; draw_dynamic_scene s;
            display_flip; clock_tick 60; pygame_quit; sys_exit ].
Proof.
  vm_compute. repeat split; try reflexivity. discriminate.
Qed.

End FrameLoopFacts.

Module ActorFacts.
Import Actors.

Lemma iter_add {A : Type} (f : A -> A) (m n : nat) (a : A) :
  iter (m + n) f a = iter m f (iter n f a).
Proof. induction m as [|m IH]; [reflexivity|]. cbn [Nat.add iter]. rewrite IH. reflexivity. Qed.

Section Components.

Context {T : Type} `{PyFloat T}.

(** Each moving actor evolves on its own: after [n] ticks its variable is
    its own step applied [n] times. *)
Lemma run_bus_x (n : nat) (s : SceneState T) :
  bus_x (run n s) = iter n step_bus (bus_x s).
Proof.
  unfold run. induction n as [|n IH]; [reflexivity|].
  cbn [iter]. rewrite <- IH. unfold update.
  destruct (step_fishes _ _ _), (step_deer _) as [[? ?] ?]. reflexivity.
Qed.

Lemma run_cloud_offset (n : nat) (s : SceneState T) :
  cloud_offset (run n s) = iter n step_cloud (cloud_offset s).
Proof.
  unfold run. induction n as [|n IH]; [reflexivity|].
  cbn [iter]. rewrite <- IH. unfold update.
  destruct (step_fishes _ _ _), (step_deer _) as [[? ?] ?]. reflexivity.
Qed.

Lemma run_deer (n : nat) (s : SceneState T) :
  (deer1_x (run n s), deer2_x (run n s), deer_direction (run n s))
  = iter n step_deer (deer1_x s, deer2_x s, deer_direction s).
Proof.
  unfold run. induction n as [|n IH]; [reflexivity|].
  cbn [iter]. rewrite <- IH. unfold update.
  destruct (step_fishes _ _ _), (step_deer _) as [[? ?] ?]. reflexivity.
Qed.

Lemma run_fish (n : nat) (s : SceneState T) :
  (fish_jump_states (run n s), fish_timers (run n s))
  = iter n (fun p => step_fishes 0 (fst p) (snd p))
         (fish_jump_states s, fish_timers s).
Proof.
  unfold run. induction n as [|n IH]; [reflexivity|].
  cbn [iter]. rewrite <- IH. unfold update. cbn [fst snd].
  destruct (step_fishes _ _ _), (step_deer _) as [[? ?] ?]. reflexivity.
Qed.

End Components.

(** *** The first bus, in binary64 arithmetic *)

(** The position of the first bus after [n] ticks. *)
Definition bus_position (n : nat) : float := bus_x (run n (initial (T := float))).

(** [-200 <= x <= 1120]. *)
Definition on_road (x : float) : bool :=
  PrimFloat.leb (of_Z (-200)) x && PrimFloat.leb x (of_Z 1120).

(** The positions of ticks [0 .. n-1] from position [x] on. *)
Fixpoint bus_positions (n : nat) (x : float) : list float :=
  match n with
  | O => []
  | S k => x :: bus_positions k (step_bus x)
  end.

Lemma iter_step_comm {A : Type} (f : A -> A) (n : nat) (a : A) :
  iter n f (f a) = f (iter n f a).
Proof. induction n as [|n IH]; [reflexivity|]. cbn [iter]. rewrite IH. reflexivity. Qed.

Lemma bus_positions_length (n : nat) :
  forall x, List.length (bus_positions n x) = n.
Proof. induction n as [|n IH]; intros x; cbn; [|rewrite IH]; reflexivity. Qed.

Lemma bus_positions_nth (n k : nat) (x : float) :
  (k < n)%nat -> nth k (bus_positions n x) x = iter k step_bus x.
Proof.
  revert k x. induction n as [|n IH]; intros k x Hk; [lia|].
  destruct k as [|k]; [reflexivity|].
  cbn [bus_positions nth iter]. rewrite <- iter_step_comm.
  rewrite <- (IH k (step_bus x)) by lia.
  apply nth_indep. rewrite bus_positions_length. lia.
Qed.

Lemma bus_cycle : iter 1100 step_bus (of_Z (-200)) = of_Z (-200).
Proof. vm_compute. reflexivity. Qed.

Lemma bus_cycle_on_road :
  forallb on_road (bus_positions 1100 (of_Z (-200))) = true.
Proof. vm_compute. reflexivity. Qed.

Lemma bus_cycle_minimal :
  forallb (fun x => negb (PrimFloat.eqb x (of_Z (-200))))
          (bus_positions 1099 (step_bus (of_Z (-200)))) = true.
Proof. vm_compute. reflexivity. Qed.

Lemma bus_period (n : nat) :
  iter (n + 1100) step_bus (of_Z (-200)) = iter n step_bus (of_Z (-200)).
Proof. rewrite iter_add, bus_cycle. reflexivity. Qed.

Lemma bus_reduce (n : nat) :
  iter n step_bus (of_Z (-200)) = iter (n mod 1100) step_bus (of_Z (-200)).
Proof.
  rewrite (Nat.div_mod_eq n 1100) at 1.
  generalize (n / 1100)%nat as q. generalize (n mod 1100)%nat as r.
  intros r q. induction q as [|q IH]; [rewrite Nat.mul_0_r; reflexivity|].
  replace (1100 * S q + r)%nat with ((1100 * q + r) + 1100)%nat by lia.
  rewrite bus_period. exact IH.
Qed.

(** C8.  Run on binary64 floats from -200, the first bus is never left of
    -200 or right of 1120 after a tick, at any tick count (100000 included),
    and its positions repeat with period 1100 ticks: tick [n + 1100] gives
    the position of tick [n], and no tick count between 1 and 1099 brings it
    back to its start. *)
Theorem bus_wrap_bounded_period_1100 :
  (forall n : nat,
      on_road (bus_position n) = true
      /\ bus_position (n + 1100) = bus_position n)
  /\ forallb (fun k => negb (PrimFloat.eqb (bus_position k) (bus_position 0)))
             (seq 1 1099) = true.
Proof.
  split.
  - intros n. unfold bus_position. rewrite !run_bus_x. cbn [initial bus_x].
    split; [|apply bus_period].
    rewrite bus_reduce.
    pose proof (Nat.mod_upper_bound n 1100 ltac:(discriminate)) as Hr.
    rewrite <- (@bus_positions_nth 1100 _ _ Hr).
    pose proof bus_cycle_on_road as F. rewrite forallb_forall in F.
    apply F. apply nth_In.
    rewrite bus_positions_length. exact Hr.
  - apply forallb_forall. intros k Hk. apply in_seq in Hk.
    unfold bus_position. rewrite !run_bus_x. cbn [initial bus_x iter].
    destruct k as [|k]; [lia|].
    cbn [iter]. rewrite <- iter_step_comm.
    assert (Hk' : (k < 1099)%nat) by lia.
    rewrite <- (@bus_positions_nth 1099 _ _ Hk').
    pose proof bus_cycle_minimal as F. rewrite forallb_forall in F.
    apply F. apply nth_In.
    rewrite bus_positions_length. exact Hk'.
Qed.

(** *** The deer, in exact arithmetic *)

Local Open Scope Q_scope.

Lemma Qltb_true (a b : Q) : PyNum.Qltb a b = true <-> a < b.
Proof.
  unfold PyNum.Qltb. rewrite negb_true_iff. split.
  - intros E. apply Qnot_le_lt. rewrite <- Qle_bool_iff. congruence.
  - intros L. apply not_true_is_false. rewrite Qle_bool_iff.
    apply Qlt_not_le. exact L.
Qed.

Lemma Qltb_false (a b : Q) : PyNum.Qltb a b = false <-> b <= a.
Proof.
  unfold PyNum.Qltb. rewrite negb_false_iff. apply Qle_bool_iff.
Qed.

Lemma deer1_right_of_450 (k : Z) :
  gtb (T := Q) (320 + (3 # 10) * inject_Z k) (of_Z 450) = (433 <? k)%Z.
Proof.
  unfold gtb. cbn [ltb of_Z Q_PyFloat]. change (inject_Z 450) with 450.
  destruct (Z.ltb_spec 433 k) as [L|L].
  - apply Qltb_true. assert (G : inject_Z 434 <= inject_Z k) by (rewrite <- Zle_Qle; lia).
    change (inject_Z 434) with (434 # 1) in G.
    generalize dependent (inject_Z k). intros q G. Lqa.lra.
  - apply Qltb_false. assert (G : inject_Z k <= inject_Z 433) by (rewrite <- Zle_Qle; lia).
    change (inject_Z 433) with (433 # 1) in G.
    generalize dependent (inject_Z k). intros q G. Lqa.lra.
Qed.

Lemma deer1_left_of_280 (k : Z) :
  ltb (T := Q) (320 + (3 # 10) * inject_Z k) (of_Z 280) = (k <? -133)%Z.
Proof.
  cbn [ltb of_Z Q_PyFloat]. change (inject_Z 280) with 280.
  destruct (Z.ltb_spec k (-133)) as [L|L].
  - apply Qltb_true. assert (G : inject_Z k <= inject_Z (-134)) by (rewrite <- Zle_Qle; lia).
    change (inject_Z (-134)) with (-134 # 1) in G.
    generalize dependent (inject_Z k). intros q G. Lqa.lra.
  - apply Qltb_false. assert (G : inject_Z (-133) <= inject_Z k) by (rewrite <- Zle_Qle; lia).
    change (inject_Z (-133)) with (-133 # 1) in G.
    generalize dependent (inject_Z k). intros q G. Lqa.lra.
Qed.

#[local] Instance Qltb_comp : Proper (Qeq ==> Qeq ==> eq) PyNum.Qltb.
Proof. intros a b E c d F. unfold PyNum.Qltb. rewrite E, F. reflexivity. Qed.

(** The deer are [k] steps of their own length to the right of where they
    started, with [k] inside the range the turning rule allows. *)
Definition deer_at (k : Z) (d : Q * Q * Z) : Prop :=
  let '(d1, d2, dir) := d in
  d1 == 320 + (3 # 10) * inject_Z k
  /\ d2 == 380 + (25 # 100) * inject_Z k
  /\ ((dir = 1%Z /\ (-134 <= k <= 433)%Z) \/ (dir = (-1)%Z /\ (-133 <= k <= 434)%Z)).

Lemma step_deer_at (k : Z) (d : Q * Q * Z) :
  deer_at k d -> exists k', deer_at k' (step_deer d).
Proof.
  destruct d as [[d1 d2] dir]. intros (E1 & E2 & Hk).
  exists (k + dir)%Z. unfold step_deer.
  set (d1' := add d1 (mul (lit 3 10) (of_Z dir))).
  set (d2' := add d2 (mul (lit 25 100) (of_Z dir))).
  assert (F1 : d1' == 320 + (3 # 10) * inject_Z (k + dir)).
  { subst d1'. cbn [add mul lit of_Z Q_PyFloat]. rewrite E1, inject_Z_plus. ring. }
  assert (F2 : d2' == 380 + (25 # 100) * inject_Z (k + dir)).
  { subst d2'. cbn [add mul lit of_Z Q_PyFloat]. rewrite E2, inject_Z_plus. ring. }
  assert (G : gtb d1' (of_Z 450) = (433 <? k + dir)%Z).
  { rewrite <- deer1_right_of_450. unfold gtb. cbn [ltb Q_PyFloat].
    apply Qltb_comp; [reflexivity|exact F1]. }
  assert (L : ltb d1' (of_Z 280) = (k + dir <? -133)%Z).
  { rewrite <- deer1_left_of_280. cbn [ltb Q_PyFloat].
    apply Qltb_comp; [exact F1|reflexivity]. }
  rewrite G, L.
  destruct (Z.ltb_spec 433 (k + dir)), (Z.ltb_spec (k + dir) (-133));
    cbn [orb deer_at]; (split; [exact F1|split; [exact F2|lia]]).
Qed.

Lemma deer_at_initial : deer_at 0 (of_Z 320, of_Z 380, 1%Z).
Proof. cbn. repeat split; try reflexivity. left. lia. Qed.

Lemma iter_deer_at (n : nat) :
  exists k, deer_at k (iter n step_deer (of_Z 320, of_Z 380, 1%Z)).
Proof.
  induction n as [|n [k IH]]; [exists 0%Z; apply deer_at_initial|].
  cbn [iter]. eapply step_deer_at. exact IH.
Qed.

(** C10.  In exact arithmetic, after any number of ticks from the initial
    state the second deer sits at [380 + (0.25 / 0.3) (deer1 - 320)], the
    direction is 1 or -1, the first deer is within [279.8, 450.2] and the
    second, never tested against a bound, within [346.5, 488.5]. *)
Theorem deer2_affine_in_deer1 (n : nat) :
  let s := run n (initial (T := Q)) in
  deer2_x s - 380 == ((25 # 100) / (3 # 10)) * (deer1_x s - 320)
  /\ (deer_direction s = 1%Z \/ deer_direction s = (-1)%Z)
  /\ (2798 # 10) <= deer1_x s /\ deer1_x s <= (4502 # 10)
  /\ (3465 # 10) <= deer2_x s /\ deer2_x s <= (4885 # 10).
Proof.
  intros s. destruct (iter_deer_at n) as [k Hk].
  pose proof (run_deer n (initial (T := Q))) as E. fold s in E.
  cbn [initial deer1_x deer2_x deer_direction] in E. rewrite <- E in Hk.
  cbn [deer_at] in Hk. destruct Hk as (E1 & E2 & Hd).
  assert (B : (-134 <= k <= 434)%Z) by lia.
  assert (Lo : inject_Z (-134) <= inject_Z k) by (rewrite <- Zle_Qle; lia).
  assert (Hi : inject_Z k <= inject_Z 434) by (rewrite <- Zle_Qle; lia).
  change (inject_Z (-134)) with (-134 # 1) in Lo.
  change (inject_Z 434) with (434 # 1) in Hi.
  rewrite E1, E2. repeat split; try Lqa.lra.
  - field.
  - destruct Hd as [[-> _]|[-> _]]; auto.
Qed.

(** Both extremes are reached: tick 434 puts the second deer at 488.5 and
    tick 1002 at 346.5. *)
Lemma deer2_extremes :
  deer2_x (run 434 (initial (T := Q))) == (4885 # 10)
  /\ deer2_x (run 1002 (initial (T := Q))) == (3465 # 10).
Proof.
  assert (E : forall n, deer2_x (run n (initial (T := Q)))
                        = snd (fst (iter n step_deer (of_Z 320, of_Z 380, 1%Z)))).
  { intros n. pose proof (run_deer n (initial (T := Q))) as R.
    cbn [initial deer1_x deer2_x deer_direction] in R. rewrite <- R. reflexivity. }
  rewrite !E. split; vm_compute; reflexivity.
Qed.

(** The deer block in exact arithmetic, written out. *)
Lemma step_deer_exact (d1 d2 : Q) (dir : Z) :
  step_deer (d1, d2, dir)
  = (d1 + (3 # 10) * inject_Z dir, d2 + (25 # 100) * inject_Z dir,
     if PyNum.Qltb 450 (d1 + (3 # 10) * inject_Z dir)
        || PyNum.Qltb (d1 + (3 # 10) * inject_Z dir) 280
     then (- dir)%Z else dir).
Proof.
  unfold step_deer, gtb. cbn [add mul lit of_Z ltb Q_PyFloat].
  change (inject_Z 450) with 450. change (inject_Z 280) with 280.
  destruct (PyNum.Qltb 450 _ || PyNum.Qltb _ 280); f_equal; lia.
Qed.

(** What a tick does to the deer, in exact arithmetic. *)
Definition deer_coupling_spec : Prop :=
  forall (d1 d2 : Q) (dir : Z),
    let '(d1', d2', dir') := step_deer (d1, d2, dir) in
    d1' == d1 + (3 # 10) * inject_Z dir
    /\ d2' == d2 + (25 # 100) * inject_Z dir
    /\ dir' = (if PyNum.Qltb 450 d1' || PyNum.Qltb d1' 280 then - dir else dir)%Z
    /\ (forall e2 : Q, snd (step_deer (d1, e2, dir)) = dir')
    /\ let '(d1'', d2'', _) := step_deer (d1', d2', dir') in
       d1'' - d1' == (3 # 10) * inject_Z dir'
       /\ d2'' - d2' == (25 # 100) * inject_Z dir'.

(** C7.  Each tick the deer move by 0.3 and 0.25 times the shared direction.
    Whether the direction is negated depends on the first deer's new position
    alone (above 450 or below 280), whatever the second deer's position, and
    from the next tick on both deer move with the new direction.  With
    direction +1 and the first deer at 449.9 one tick takes it past 450,
    the direction becomes -1, and the next tick moves the second deer, at
    380.25, back by 0.25; binary64 arithmetic negates the direction at the
    same tick. *)
Theorem deer_direction_follows_first_deer :
  deer_coupling_spec
  /\ (let '(d1', d2', dir') := step_deer (T := Q) (4499 # 10, 380, 1%Z) in
      d1' == (4502 # 10) /\ d2' == (38025 # 100) /\ dir' = (-1)%Z
      /\ let '(_, d2'', dir'') := step_deer (d1', d2', dir') in
         d2'' == 380 /\ dir'' = (-1)%Z)
  /\ snd (step_deer (T := float) (lit 4499 10, of_Z 380, 1%Z)) = (-1)%Z.
Proof.
  split; [|split; [vm_compute; repeat split; reflexivity|vm_compute; reflexivity]].
  intros d1 d2 dir. rewrite step_deer_exact.
  split; [reflexivity|]. split; [reflexivity|]. split; [reflexivity|].
  split; [intros e2; rewrite step_deer_exact; reflexivity|].
  rewrite step_deer_exact. split; ring.
Qed.

(** *** Clouds *)

Lemma step_cloud_range (o : Q) :
  0 <= o <= 1200 -> 0 <= step_cloud o <= 1200.
Proof.
  intros [Lo Hi]. unfold step_cloud, move_right, gtb.
  cbn [add lit of_Z ltb Q_PyFloat].
  change (inject_Z (WINDOW_WIDTH + 200)) with 1200. change (inject_Z 0) with 0.
  destruct (PyNum.Qltb 1200 (o + (8 # 100))) eqn:E.
  - split; Lqa.lra.
  - apply Qltb_false in E. split; Lqa.lra.
Qed.

Lemma cloud_offset_range (n : nat) :
  0 <= cloud_offset (run n (initial (T := Q))) <= 1200.
Proof.
  rewrite run_cloud_offset. cbn [initial cloud_offset].
  induction n as [|n IH]; [split; discriminate|].
  cbn [iter]. apply step_cloud_range. exact IH.
Qed.

Lemma cluster_x_exact (x : Q) :
  cluster_x x = if PyNum.Qltb 1100 x then x - 1200 else x.
Proof. reflexivity. Qed.

Lemma cluster_x_range (x : Q) :
  150 <= x <= 2300 -> -100 < cluster_x x /\ cluster_x x <= 1100.
Proof.
  intros [Lo Hi]. rewrite cluster_x_exact.
  destruct (PyNum.Qltb 1100 x) eqn:E.
  - apply Qltb_true in E. split; Lqa.lra.
  - apply Qltb_false in E. split; Lqa.lra.
Qed.

(** What a tick does to the cloud offset and where the clusters are drawn,
    in exact arithmetic. *)
Definition cloud_spec : Prop :=
  (forall o : Q,
      step_cloud o = if PyNum.Qltb 1200 (o + (8 # 100)) then 0 else o + (8 # 100))
  /\ (forall n : nat, 0 <= cloud_offset (run n (initial (T := Q))) <= 1200)
  /\ (forall o : Q,
         c1_x o = (let x := 150 + o in
                   if PyNum.Qltb 1100 x then x - 1200 else x)
         /\ c2_x o = (let x := 420 + o * (8 # 10) in
                      if PyNum.Qltb 1100 x then x - 1200 else x)
         /\ c3_x o = (let x := 750 + o * (12 # 10) in
                      if PyNum.Qltb 1100 x then x - 1200 else x)
         /\ c4_x o = (let x := 320 + o * (6 # 10) in
                      if PyNum.Qltb 1100 x then x - 1200 else x))
  /\ (forall o : Q, 0 <= o <= 1200 ->
         Forall (fun x => -100 < x /\ x <= 1100) [c1_x o; c2_x o; c3_x o; c4_x o]).

(** C6 (as the code has it).  Each tick the shared offset grows by 0.08 and
    goes back to 0 once it exceeds [WINDOW_WIDTH + 200 = 1200], so it stays
    within [0, 1200].  A cluster is drawn at [base + offset * factor] (bases
    150, 420, 750, 320; factors 1, 0.8, 1.2, 0.6), and once that position
    exceeds [WINDOW_WIDTH + 100 = 1100] it is drawn [1200] further left, which
    keeps every cluster in (-100, 1100]. *)
Theorem cloud_offset_and_cluster_wrap : cloud_spec.
Proof.
  split; [intros o; reflexivity|]. split; [exact cloud_offset_range|].
  split; [intros o; repeat split; reflexivity|].
  intros o [Lo Hi]. unfold c1_x, c2_x, c3_x, c4_x.
  cbn [add mul lit of_Z Q_PyFloat].
  change (inject_Z 150) with 150. change (inject_Z 420) with 420.
  change (inject_Z 750) with 750. change (inject_Z 320) with 320.
  repeat constructor; apply cluster_x_range; split; Lqa.lra.
Qed.

Lemma cloud_offset_and_cluster_wrap_at_600 :
  0 <= 600 <= 1200
  /\ Forall (fun x => -100 < x /\ x <= 1100)
            [c1_x (T := Q) 600; c2_x (T := Q) 600; c3_x (T := Q) 600; c4_x (T := Q) 600].
Proof.
  split; [split; discriminate|].
  apply (proj2 (proj2 (proj2 cloud_offset_and_cluster_wrap)) 600).
  split; discriminate.
Defined.

(** After 12500 ticks of binary64 arithmetic the offset is a little above
    1000, below the bound 1200, and the first cluster, whose factor is 1, is
    already drawn 1200 further left, at about -50. *)
Lemma cluster_wraps_before_offset_reaches_1200 :
  let o := cloud_offset (run (Z.to_nat 12500) (initial (T := float))) in
  PrimFloat.ltb (of_Z 1200) o = false
  /\ PrimFloat.ltb (of_Z 1000) o = true
  /\ c1_x o = PrimFloat.sub (PrimFloat.add (of_Z 150) o) (of_Z 1200)
  /\ PrimFloat.ltb (c1_x o) (of_Z 0) = true.
Proof. vm_compute. repeat split; reflexivity. Qed.

(** *** Fish *)

Local Open Scope Z_scope.

Lemma fish_jump_phase (i : Z) (k : nat) :
  (1 <= k <= 40)%nat ->
  iter k (step_fish i) (0, 180 + i * 50) = (Z.of_nat k, 180 + i * 50 + Z.of_nat k).
Proof.
  induction k as [|k IH]; [lia|]. intros Hk.
  change (iter (S k) (step_fish i) (0, 180 + i * 50))
    with (step_fish i (iter k (step_fish i) (0, 180 + i * 50))).
  destruct k as [|k].
  - cbn [iter]. unfold step_fish. change (0 <? 0) with false. cbv iota.
    destruct (Z.ltb_spec (180 + i * 50) (180 + i * 50 + 1)); [|lia].
    f_equal.
  - rewrite IH by lia. unfold step_fish.
    destruct (Z.ltb_spec 0 (Z.of_nat (S k))); [|lia].
    destruct (Z.ltb_spec 40 (Z.of_nat (S k) + 1)); [lia|].
    f_equal; lia.
Qed.

Lemma fish_back_to_idle (i : Z) :
  iter 41 (step_fish i) (0, 180 + i * 50) = (0, 0).
Proof.
  change (iter 41 (step_fish i) (0, 180 + i * 50))
    with (step_fish i (iter 40 (step_fish i) (0, 180 + i * 50))).
  rewrite fish_jump_phase by lia. reflexivity.
Qed.

Local Open Scope R_scope.

Lemma jump_height_0 : jump_height 0 = 0.
Proof.
  unfold jump_height. replace (0 / 40 * PI) with 0 by field.
  rewrite sin_0. ring.
Qed.

Lemma jump_height_40 : jump_height 40 = 0.
Proof.
  unfold jump_height. replace (40 / 40 * PI) with PI by field.
  rewrite sin_PI. ring.
Qed.

Lemma jump_height_20 : jump_height 20 = 35.
Proof.
  unfold jump_height. replace (20 / 40 * PI) with (PI / 2) by field.
  rewrite sin_PI2. ring.
Qed.

Lemma jump_height_bounds (state : Z) :
  (0 <= state <= 40)%Z -> 0 <= jump_height state <= 35.
Proof.
  intros [Lo Hi]. unfold jump_height.
  apply IZR_le in Lo, Hi. pose proof PI_RGT_0 as P.
  assert (A : 0 <= IZR state / 40 * PI).
  { apply Rmult_le_pos; [lra|lra]. }
  assert (B : IZR state / 40 * PI <= PI).
  { rewrite <- (Rmult_1_l PI) at 2. apply Rmult_le_compat_r; lra. }
  pose proof (sin_ge_0 _ A B). pose proof (SIN_bound (IZR state / 40 * PI)). lra.
Qed.

Lemma splash_frame_iff (state : Z) :
  splash_frame state = true <-> In state [1; 2; 3; 37; 38; 39; 40]%Z.
Proof.
  unfold splash_frame. rewrite existsb_exists. split.
  - intros (x & Hx & E). apply Z.eqb_eq in E. subst x. exact Hx.
  - intros Hin. exists state. split; [exact Hin|apply Z.eqb_refl].
Qed.

(** The expected jump state of fish [i] after [n] ticks from the start,
    through its first jump. *)
Definition first_jump (i n : Z) : Z :=
  if (n <=? 180 + i * 50)%Z then 0%Z
  else if (n <=? 220 + i * 50)%Z then (n - (180 + i * 50))%Z
  else 0%Z.

(** What the fish code does. *)
Definition fish_spec : Prop :=
  (forall i t : Z,
      step_fish i (0, t)%Z
      = if (180 + i * 50 <? t + 1)%Z then (1, t + 1)%Z else (0, t + 1)%Z)
  /\ (forall (i : Z) (k : nat), (1 <= k <= 40)%nat ->
         iter k (step_fish i) (0, 180 + i * 50)%Z
         = (Z.of_nat k, 180 + i * 50 + Z.of_nat k)%Z)
  /\ (forall i : Z, iter 41 (step_fish i) (0, 180 + i * 50)%Z = (0, 0)%Z)
  /\ jump_height 0 = 0 /\ jump_height 40 = 0 /\ jump_height 20 = 35
  /\ (forall state : Z, (0 <= state <= 40)%Z -> 0 <= jump_height state <= 35)
  /\ (forall (i : nat) (fx fy state : Z),
         (exists cx cy radius,
             In (call_splash cx cy radius) (draw_one_fish i (fx, fy) state))
         <-> ((0 < state)%Z /\ In state [1; 2; 3; 37; 38; 39; 40]%Z))
  /\ (forall (i : nat) (fx fy state : Z), (0 < state)%Z ->
         In (call_draw_fish i fx fy (35 * sin (IZR state / 40 * PI)))
            (draw_one_fish i (fx, fy) state))
  /\ forallb (fun n : nat =>
        forallb (fun i : nat =>
           Z.eqb (nth i (fish_jump_states (run n (initial (T := float)))) (-1)%Z)
                 (first_jump (Z.of_nat i) (Z.of_nat n)))
          [0; 1; 2; 3]%nat)
       (seq 0 372) = true.



(** *** Every actor keeps to its lane *)

(** The first [n] values of the orbit of [a] under [f]. *)
Fixpoint trajectory {A : Type} (n : nat) (f : A -> A) (a : A) : list A :=
  match n with
  | O => []
  | S k => a :: trajectory k f (f a)
  end.

Lemma trajectory_length {A : Type} (f : A -> A) (n : nat) :
  forall a, List.length (trajectory n f a) = n.
Proof. induction n as [|n IH]; intros a; cbn; [|rewrite IH]; reflexivity. Qed.

Lemma trajectory_nth {A : Type} (f : A -> A) (n k : nat) (a : A) :
  (k < n)%nat -> nth k (trajectory n f a) a = iter k f a.
Proof.
  revert k a. induction n as [|n IH]; intros k a Hk; [lia|].
  destruct k as [|k]; [reflexivity|].
  cbn [trajectory nth iter]. rewrite <- iter_step_comm.
  rewrite <- (IH k (f a)) by lia.
  apply nth_indep. rewrite trajectory_length. lia.
Qed.

(** An orbit that comes back to its [t]-th value after [p] more steps never
    leaves its first [t + p] values. *)
Lemma orbit_folds {A : Type} (f : A -> A) (a : A) (t p : nat) :
  (0 < p)%nat -> iter (t + p) f a = iter t f a ->
  forall n, exists m, (m < t + p)%nat /\ iter n f a = iter m f a.
Proof.
  intros Hp Hc n. induction n as [n IH] using (well_founded_induction lt_wf).
  destruct (Nat.lt_ge_cases n (t + p)) as [L|G].
  - exists n. split; [exact L|reflexivity].
  - destruct (IH (n - p)%nat ltac:(lia)) as (m & Hm & E).
    exists m. split; [exact Hm|]. rewrite <- E.
    replace n with ((n - (t + p)) + (t + p))%nat at 1 by lia.
    rewrite iter_add, Hc, <- iter_add. f_equal. lia.
Qed.

Lemma orbit_forall {A : Type} (f : A -> A) (a : A) (ok : A -> bool) (t p : nat) :
  (0 < p)%nat -> iter (t + p) f a = iter t f a ->
  forallb ok (trajectory (t + p) f a) = true ->
  forall n, ok (iter n f a) = true.
Proof.
  intros Hp Hc Hall n. destruct (orbit_folds f a t Hp Hc n) as (m & Hm & ->).
  rewrite forallb_forall in Hall. apply Hall.
  rewrite <- (@trajectory_nth _ f (t + p) m a Hm). apply nth_In.
  rewrite trajectory_length. exact Hm.
Qed.

Section Movers.

Context {T : Type} `{PyFloat T}.

Lemma run_movers (n : nat) (s : SceneState T) :
  bus2_x (run n s) = iter n step_bus2 (bus2_x s)
  /\ kayak1_x (run n s) = iter n step_kayak1 (kayak1_x s)
  /\ kayak2_x (run n s) = iter n step_kayak2 (kayak2_x s)
  /\ kayak3_x (run n s) = iter n step_kayak3 (kayak3_x s)
  /\ plane_x (run n s) = iter n step_plane (plane_x s).
Proof.
  unfold run. induction n as [|n IH]; [repeat split; reflexivity|].
  cbn [iter]. destruct IH as (A & B & C & D & E).
  rewrite <- A, <- B, <- C, <- D, <- E. unfold update.
  destruct (step_fishes _ _ _), (step_deer _) as [[? ?] ?].
  repeat split; reflexivity.
Qed.

End Movers.

(** [lo <= x <= hi] on binary64 floats. *)
Definition within (lo hi : Z) (x : float) : bool :=
  PrimFloat.leb (of_Z lo) x && PrimFloat.leb x (of_Z hi).

(** In binary64 arithmetic, after any number of ticks from the initial
    state, the second bus is within [-600, 1120], the kayaks within
    [-100, 1100], the plane within [-200, 1200] and the cloud offset within
    [0, 1200]. *)
Theorem movers_keep_to_their_lanes_binary64 (n : nat) :
  let s := run n (initial (T := float)) in
  within (-600) 1120 (bus2_x s) = true
  /\ within (-100) 1100 (kayak1_x s) = true
  /\ within (-100) 1100 (kayak2_x s) = true
  /\ within (-100) 1100 (kayak3_x s) = true
  /\ within (-200) 1200 (plane_x s) = true
  /\ within 0 1200 (cloud_offset s) = true.
Proof.
  intros s. subst s.
  destruct (run_movers n (initial (T := float))) as (A & B & C & D & E).
  rewrite A, B, C, D, E, run_cloud_offset. cbn [initial bus2_x kayak1_x kayak2_x
    kayak3_x plane_x cloud_offset].
  split; [|split; [|split; [|split; [|split]]]].
  - apply (@orbit_forall _ step_bus2 (of_Z (-600)) (within (-600) 1120) 1721 1321);
      [lia|vm_compute; reflexivity|vm_compute; reflexivity].
  - apply (@orbit_forall _ step_kayak1 (of_Z 200) (within (-100) 1100) 858 3429);
      [lia|vm_compute; reflexivity|vm_compute; reflexivity].
  - apply (@orbit_forall _ step_kayak2 (of_Z 500) (within (-100) 1100) 2143 4286);
      [lia|vm_compute; reflexivity|vm_compute; reflexivity].
  - apply (@orbit_forall _ step_kayak3 (of_Z 800) (within (-100) 1100) 2251 3001);
      [lia|vm_compute; reflexivity|vm_compute; reflexivity].
  - apply (@orbit_forall _ step_plane (of_Z (-200)) (within (-200) 1200) 0 701);
      [lia|vm_compute; reflexivity|vm_compute; reflexivity].
  - apply (@orbit_forall _ step_cloud (of_Z 0) (within 0 1200) 0 (Z.to_nat 15000));
      [apply Nat.ltb_lt; vm_compute; reflexivity|vm_compute; reflexivity
      |vm_compute; reflexivity].
Qed.

(** The deer are where they may be: the first within [279.7, 450.3], the
    second within [346.5, 488.5], the direction 1 or -1. *)
Definition deer_in_range (d : float * float * Z) : bool :=
  let '(d1, d2, dir) := d in
  PrimFloat.leb (lit 2797 10) d1 && PrimFloat.leb d1 (lit 4503 10)
  && PrimFloat.leb (lit 3465 10) d2 && PrimFloat.leb d2 (lit 4885 10)
  && ((dir =? 1)%Z || (dir =? -1)%Z).

(** In binary64 arithmetic the deer keep to their stretch at every tick, and
    their joint state (both positions and the direction) repeats every 1136
    ticks from the first tick on. *)
Theorem deer_bounded_and_periodic_binary64 (n : nat) :
  let s := run n (initial (T := float)) in
  deer_in_range (deer1_x s, deer2_x s, deer_direction s) = true
  /\ let s' := run (n + 1 + 1136) (initial (T := float)) in
     let s1 := run (n + 1) (initial (T := float)) in
     (deer1_x s', deer2_x s', deer_direction s')
     = (deer1_x s1, deer2_x s1, deer_direction s1).
Proof.
  cbv zeta. rewrite !run_deer. cbn [initial deer1_x deer2_x deer_direction].
  assert (C : iter (1 + 1136) step_deer (of_Z 320 : float, of_Z 380 : float, 1%Z)
              = iter 1 step_deer (of_Z 320 : float, of_Z 380 : float, 1%Z))
    by (vm_compute; reflexivity).
  split.
  - apply (@orbit_forall _ step_deer _ deer_in_range 1 1136);
      [lia|exact C|vm_compute; reflexivity].
  - replace (n + 1 + 1136)%nat with (n + (1 + 1136))%nat by lia.
    rewrite (iter_add step_deer n (1 + 1136)), C, <- iter_add. reflexivity.
Qed.

Local Open Scope Q_scope.

Lemma move_right_range (speed x : Q) (limit restart lo : Z) :
  0 <= speed -> (lo <= restart <= limit)%Z ->
  inject_Z lo <= x <= inject_Z limit ->
  inject_Z lo <= move_right speed limit restart x <= inject_Z limit.
Proof.
  intros Hs Hr [Lo Hi]. unfold move_right, gtb. cbn [add of_Z ltb Q_PyFloat].
  destruct (PyNum.Qltb (inject_Z limit) (x + speed)) eqn:E.
  - split; rewrite <- Zle_Qle; lia.
  - apply Qltb_false in E. split; [|exact E].
    apply Qle_trans with x; [exact Lo|]. Lqa.lra.
Qed.

Lemma move_left_range (speed x : Q) (limit restart hi : Z) :
  0 <= speed -> (limit <= restart <= hi)%Z ->
  inject_Z limit <= x <= inject_Z hi ->
  inject_Z limit <= move_left speed limit restart x <= inject_Z hi.
Proof.
  intros Hs Hr [Lo Hi]. unfold move_left. cbn [sub of_Z ltb Q_PyFloat].
  destruct (PyNum.Qltb (x - speed) (inject_Z limit)) eqn:E.
  - split; rewrite <- Zle_Qle; lia.
  - apply Qltb_false in E. split; [exact E|].
    apply Qle_trans with x; [Lqa.lra|exact Hi].
Qed.

Lemma iter_range (f : Q -> Q) (lo hi : Q) (a : Q) (n : nat) :
  (forall x, lo <= x <= hi -> lo <= f x <= hi) -> lo <= a <= hi ->
  lo <= iter n f a <= hi.
Proof. intros Hf Ha. induction n as [|n IH]; [exact Ha|]. cbn [iter]. apply Hf, IH. Qed.

(** In exact arithmetic, after any number of ticks from the initial state,
    both buses are within [-600, 1120] (the first within [-200, 1120]), the
    kayaks within [-100, 1100] and the plane within [-200, 1200]. *)
Theorem movers_keep_to_their_lanes_exact (n : nat) :
  let s := run n (initial (T := Q)) in
  -200 <= bus_x s <= 1120
  /\ -600 <= bus2_x s <= 1120
  /\ -100 <= kayak1_x s <= 1100
  /\ -100 <= kayak2_x s <= 1100
  /\ -100 <= kayak3_x s <= 1100
  /\ -200 <= plane_x s <= 1200.
Proof.
  intros s. subst s.
  destruct (run_movers n (initial (T := Q))) as (A & B & C & D & E).
  rewrite A, B, C, D, E, run_bus_x.
  cbn [initial bus_x bus2_x kayak1_x kayak2_x kayak3_x plane_x].
  split; [|split; [|split; [|split; [|split]]]].
  - apply (@iter_range step_bus (inject_Z (-200)) (inject_Z 1120) _ n);
      [intros x; apply move_right_range; [discriminate|unfold WINDOW_WIDTH; lia]|split; discriminate].
  - apply (@iter_range step_bus2 (inject_Z (-600)) (inject_Z 1120) _ n);
      [intros x; apply move_right_range; [discriminate|unfold WINDOW_WIDTH; lia]|split; discriminate].
  - apply (@iter_range step_kayak1 (inject_Z (-100)) (inject_Z 1100) _ n);
      [intros x; apply move_left_range; [discriminate|unfold WINDOW_WIDTH; lia]|split; discriminate].
  - apply (@iter_range step_kayak2 (inject_Z (-100)) (inject_Z 1100) _ n);
      [intros x; apply move_left_range; [discriminate|unfold WINDOW_WIDTH; lia]|split; discriminate].
  - apply (@iter_range step_kayak3 (inject_Z (-100)) (inject_Z 1100) _ n);
      [intros x; apply move_left_range; [discriminate|unfold WINDOW_WIDTH; lia]|split; discriminate].
  - apply (@iter_range step_plane (inject_Z (-200)) (inject_Z 1200) _ n);
      [intros x; apply move_right_range; [discriminate|unfold WINDOW_WIDTH; lia]|split; discriminate].
Qed.

(** *** The fish over the whole run *)

Local Open Scope Z_scope.

Lemma step_fishes_length (i : Z) (states timers : list Z) :
  List.length (fst (step_fishes i states timers)) = List.length states
  /\ List.length (snd (step_fishes i states timers)) = List.length timers.
Proof.
  revert i timers. induction states as [|s ss IH]; intros i timers.
  - destruct timers; split; reflexivity.
  - destruct timers as [|t ts]; [split; reflexivity|].
    cbn [step_fishes]. destruct (step_fish i (s, t)) as [s' t'].
    specialize (IH (i + 1) ts).
    destruct (step_fishes (i + 1) ss ts) as [ss' ts']. cbn [fst snd] in *.
    cbn [List.length]. destruct IH as [-> ->]. split; reflexivity.
Qed.

Lemma step_fishes_nth (states : list Z) :
  forall (i : Z) (timers : list Z) (j : nat),
    List.length states = List.length timers -> (j < List.length states)%nat ->
    (nth j (fst (step_fishes i states timers)) 0,
     nth j (snd (step_fishes i states timers)) 0)
    = step_fish (i + Z.of_nat j) (nth j states 0, nth j timers 0).
Proof.
  induction states as [|s ss IH]; intros i timers j Hl Hj; [cbn in Hj; lia|].
  destruct timers as [|t ts]; [discriminate|].
  cbn [step_fishes]. destruct (step_fish i (s, t)) as [s' t'] eqn:E.
  specialize (IH (i + 1) ts).
  destruct (step_fishes (i + 1) ss ts) as [ss' ts']. cbn [fst snd] in *.
  destruct j as [|j].
  - cbn [nth]. rewrite Z.add_0_r. symmetry. exact E.
  - cbn [nth]. rewrite (IH j) by (cbn in Hl, Hj; lia).
    f_equal. lia.
Qed.

Section FishRun.

Context {T : Type} `{PyFloat T}.

Lemma run_fish_lengths (n : nat) :
  List.length (fish_jump_states (run n (initial (T := T)))) = 4%nat
  /\ List.length (fish_timers (run n (initial (T := T)))) = 4%nat.
Proof.
  induction n as [|n [A B]]; [split; reflexivity|].
  pose proof (run_fish (S n) (initial (T := T))) as E.
  pose proof (run_fish n (initial (T := T))) as E'.
  cbn [iter] in E. rewrite <- E' in E. cbn [fst snd] in E.
  pose proof (step_fishes_length 0 (fish_jump_states (run n initial))
                (fish_timers (run n initial))) as [L1 L2].
  rewrite <- E in L1, L2. cbn [fst snd] in L1, L2. rewrite L1, L2. split; assumption.
Qed.

(** Each fish runs on its own: its state and timer after [n] ticks are its
    own step applied [n] times. *)
Lemma run_fish_nth (n j : nat) :
  (j < 4)%nat ->
  (nth j (fish_jump_states (run n (initial (T := T)))) 0,
   nth j (fish_timers (run n (initial (T := T)))) 0)
  = iter n (step_fish (Z.of_nat j)) (0, 0).
Proof.
  intros Hj. induction n as [|n IH].
  - cbn [run iter initial fish_jump_states fish_timers].
    do 4 (destruct j as [|j]; [reflexivity|]). lia.
  - cbn [iter]. rewrite <- IH.
    pose proof (run_fish (S n) (initial (T := T))) as E.
    pose proof (run_fish n (initial (T := T))) as E'.
    cbn [iter] in E. rewrite <- E' in E. cbn [fst snd] in E.
    destruct (run_fish_lengths n) as [L1 L2].
    pose proof (@step_fishes_nth (fish_jump_states (run n initial)) 0
                  (fish_timers (run n initial)) j) as N.
    rewrite <- E in N. cbn [fst snd] in N. rewrite N by lia.
    reflexivity.
Qed.

End FishRun.

Lemma iter_mod {A : Type} (f : A -> A) (a : A) (p n : nat) :
  (0 < p)%nat -> iter p f a = a -> iter n f a = iter (n mod p) f a.
Proof.
  intros Hp Hc. rewrite (Nat.div_mod_eq n p) at 1.
  generalize (n / p)%nat as q. intros q. induction q as [|q IH].
  - rewrite Nat.mul_0_r. reflexivity.
  - replace (p * S q + n mod p)%nat with ((p * q + n mod p) + p)%nat by lia.
    rewrite iter_add, Hc. exact IH.
Qed.

(** The length of the jump cycle of fish [j]: [181 + 50 j] idle ticks and 40
    ticks in the air. *)
Definition fish_period (j : nat) : nat := (221 + 50 * j)%nat.

Lemma fish_cycle_check :
  forallb (fun j : nat =>
     (let '(s, t) := iter (fish_period j) (step_fish (Z.of_nat j)) (0, 0) in
      (s =? 0) && (t =? 0))
     && forallb (fun m : nat =>
          let '(s, t) := iter m (step_fish (Z.of_nat j)) (0, 0) in
          (s =? first_jump (Z.of_nat j) (Z.of_nat m)) && (t =? Z.of_nat m)
          && (0 <=? s) && (s <=? 40))
          (seq 0 (fish_period j)))
    [0; 1; 2; 3]%nat = true.
Proof. vm_compute. reflexivity. Qed.

(** At every tick from the initial state, with either arithmetic, the two
    fish lists still have their four entries, and fish [j] is in the phase
    its own cycle of [221 + 50 j] ticks prescribes: idle for the first
    [180 + 50 j] ticks of the cycle, then phases 1 to 40; its timer counts the
    ticks since the cycle began.  A jump state is never outside 0..40. *)
Theorem fish_cycle_forever {T : Type} `{PyFloat T} (n j : nat) :
  (j < 4)%nat ->
  let s := run n (initial (T := T)) in
  let m := (n mod fish_period j)%nat in
  List.length (fish_jump_states s) = 4%nat
  /\ List.length (fish_timers s) = 4%nat
  /\ nth j (fish_jump_states s) 0 = first_jump (Z.of_nat j) (Z.of_nat m)
  /\ nth j (fish_timers s) 0 = Z.of_nat m
  /\ 0 <= nth j (fish_jump_states s) 0 <= 40.
Proof.
  intros Hj s m. destruct (run_fish_lengths (T := T) n) as [L1 L2].
  split; [exact L1|]. split; [exact L2|].
  pose proof (run_fish_nth (T := T) n Hj) as E. fold s in E.
  pose proof fish_cycle_check as C. rewrite forallb_forall in C.
  assert (Hin : In j [0; 1; 2; 3]%nat)
    by (do 4 (destruct j as [|j]; [cbn; tauto|]); lia).
  specialize (C j Hin). apply andb_true_iff in C. destruct C as [C1 C2].
  assert (Hp : (0 < fish_period j)%nat) by (unfold fish_period; lia).
  assert (Hc : iter (fish_period j) (step_fish (Z.of_nat j)) (0, 0) = (0, 0)).
  { destruct (iter (fish_period j) (step_fish (Z.of_nat j)) (0, 0)) as [a b].
    apply andb_true_iff in C1. destruct C1 as [Ca Cb].
    apply Z.eqb_eq in Ca, Cb. subst. reflexivity. }
  rewrite (@iter_mod _ (step_fish (Z.of_nat j)) (0, 0) (fish_period j) n Hp Hc) in E.
  fold m in E.
  rewrite forallb_forall in C2.
  assert (Hm : In m (seq 0 (fish_period j))).
  { apply in_seq. split; [lia|]. subst m. cbn [Nat.add].
    apply Nat.mod_upper_bound. lia. }
  specialize (C2 m Hm).
  destruct (iter m (step_fish (Z.of_nat j)) (0, 0)) as [a b].
  injection E as Ea Eb. rewrite Ea, Eb.
  apply andb_true_iff in C2. destruct C2 as [C2 D4].
  apply andb_true_iff in C2. destruct C2 as [C2 D3].
  apply andb_true_iff in C2. destruct C2 as [D1 D2].
  apply Z.eqb_eq in D1, D2. apply Z.leb_le in D3, D4.
  split; [exact D1|]. split; [exact D2|]. split; assumption.
Qed.

Lemma fish_cycle_forever_fish_2 :
  (2 < 4)%nat
  /\ nth 2 (fish_jump_states (run 1263 (initial (T := float)))) 0 = 20.
Proof.
  split; [lia|].
  exact (proj1 (proj2 (proj2 (@fish_cycle_forever float _ 1263 2 ltac:(lia))))).
Defined.

End ActorFacts.

Module LoopRunFacts.
Import Actors FrameLoop FrameLoopFacts ActorFacts.

(** The event poll leaves [running] false exactly when it was false already
    or some event of the batch, wherever it stands, is QUIT, Escape or Q:
    a later event never switches the loop back on. *)
Theorem quit_event_is_sticky (events : list event) (running : bool) :
  handle_events events running = false
  <-> running = false
      \/ exists e, In e events
                   /\ (e = QUIT \/ e = KEYDOWN K_ESCAPE \/ e = KEYDOWN K_q).
Proof.
  rewrite handle_events_quit. split.
  - intros E. destruct running; [right|left; reflexivity].
    cbn [andb] in E. apply negb_false_iff in E. unfold quit_requested in E.
    apply existsb_exists in E. destruct E as (e & Hin & He). exists e.
    split; [exact Hin|]. destruct e as [|[]|]; try discriminate; auto.
  - intros [->|(e & Hin & He)]; [reflexivity|].
    assert (Q : quit_requested events = true).
    { unfold quit_requested. apply existsb_exists. exists e. split; [exact Hin|].
      destruct He as [->|[->| ->]]; reflexivity. }
    rewrite Q. destruct running; reflexivity.
Qed.

Section Generic.

Context {T : Type} `{PyFloat T}.

Lemma run_S (n : nat) (s : SceneState T) : run (S n) s = run n (update s).
Proof. unfold run. cbn [iter]. rewrite <- iter_step_comm. reflexivity. Qed.

(** The effects of [n] passes from state [s]. *)
Fixpoint pass_effects (n : nat) (s : SceneState T) : list (effect T) :=
  match n with
  | O => []
  | S k =>
      [ gl_clear; gl_load_identity; draw_static_scene (update s);
        draw_dynamic_scene (update s); display_flip; clock_tick 60 ]
        ++ pass_effects k (update s)
  end.

Lemma pass_effects_length (n : nat) :
  forall s, List.length (pass_effects n s) = (6 * n)%nat.
Proof.
  induction n as [|n IH]; intros s; [reflexivity|].
  cbn [pass_effects]. rewrite length_app, IH. cbn [List.length]. lia.
Qed.

Lemma main_loop_quiet (quiet : list (list event)) :
  forall (tail : list (list event)) (s : SceneState T),
    forallb (fun b => negb (quit_requested b)) quiet = true ->
    main_loop (quiet ++ tail) true s
    = let '(r, s', fx) := main_loop tail true (run (List.length quiet) s) in
      (r, s', pass_effects (List.length quiet) s ++ fx).
Proof.
  induction quiet as [|b quiet IH]; intros tail s Hq.
  - cbn [app List.length pass_effects run iter].
    destruct (main_loop tail true s) as [[r s'] fx]. reflexivity.
  - cbn [forallb] in Hq. apply andb_true_iff in Hq. destruct Hq as [Hb Hq].
    apply negb_true_iff in Hb.
    change ((b :: quiet) ++ tail) with (b :: (quiet ++ tail)).
    rewrite (proj2 (pass_with_or_without_quit b (quiet ++ tail) s) Hb).
    rewrite (IH tail (update s) Hq). cbn [List.length]. rewrite run_S.
    destruct (main_loop tail true (run (List.length quiet) (update s))) as [[r s'] fx].
    cbn [pass_effects]. rewrite <- app_assoc. reflexivity.
Qed.


End Generic.


End LoopRunFacts.

Module RasterFacts.
Import PyNum GL Rasterizer DDAFacts MidpointFacts CircleFacts.
Local Open Scope Q_scope.

(** [round] moves a number by at most one half. *)
Lemma py_round_error (x : Q) : Qabs (inject_Z (py_round x) - x) <= 1 # 2.
Proof.
  apply Qabs_Qle_condition. unfold py_round.
  pose proof (Qfloor_le x) as Lo. pose proof (Qlt_floor x) as Hi.
  rewrite inject_Z_plus in Hi. change (inject_Z 1) with 1 in Hi.
  destruct (Qcompare (x - inject_Z (Qfloor x)) (1 # 2)) eqn:C.
  - apply Qeq_alt in C.
    destruct (Z.even (Qfloor x)); [|rewrite inject_Z_plus; change (inject_Z 1) with 1];
      generalize dependent (inject_Z (Qfloor x)); intros f Lo Hi C; split; Lqa.lra.
  - apply Qlt_alt in C.
    generalize dependent (inject_Z (Qfloor x)). intros f Lo Hi C. split; Lqa.lra.
  - apply Qgt_alt in C. rewrite inject_Z_plus. change (inject_Z 1) with 1.
    generalize dependent (inject_Z (Qfloor x)). intros f Lo Hi C. split; Lqa.lra.
Qed.

Lemma steps_times_increment (d : Q) (steps : Z) :
  steps <> 0%Z -> inject_Z steps * (d / inject_Z steps) == d.
Proof.
  intros Hs. field. intros E.
  apply Hs. unfold Qeq in E. cbn in E. lia.
Qed.

(** What a line of at least one step looks like. *)
Definition dda_line_spec (x1 y1 x2 y2 r g b : Q) : Prop :=
  let steps := dda_steps x1 y1 x2 y2 in
  let vs := vertices (draw_line_dda x1 y1 x2 y2 r g b) in
  List.length vs = S (Z.to_nat steps)
  /\ nth 0 vs (0, 0) = (inject_Z (py_round x1), inject_Z (py_round y1))
  /\ nth (Z.to_nat steps) vs (0, 0) = (inject_Z (py_round x2), inject_Z (py_round y2))
  /\ forall k, (k <= Z.to_nat steps)%nat ->
       let t := inject_Z (Z.of_nat k) / inject_Z steps in
       Qabs (fst (nth k vs (0, 0)) - (x1 + t * (x2 - x1))) <= 1 # 2
       /\ Qabs (snd (nth k vs (0, 0)) - (y1 + t * (y2 - y1))) <= 1 # 2.



(** *** The outline loop for any radius *)

Lemma Qle_bool_floor (x : Z) (y : Q) :
  Qle_bool (inject_Z x) y = true -> (x <= Qfloor y)%Z.
Proof.
  intros E. apply Qle_bool_iff in E. rewrite <- (Qfloor_Z x).
  apply Qfloor_resp_le. exact E.
Qed.

Lemma Qfloor_pred_le (y : Q) : (Qfloor (y - 1) <= Qfloor y)%Z.
Proof. apply Qfloor_resp_le. Lqa.lra. Qed.

Lemma midpoint_loop_total (fuel : nat) (cx cy : Q) :
  forall (x : Z) (y d : Q),
    (Z.to_nat (Qfloor y - x + 1) < fuel)%nat ->
    exists l, midpoint_loop fuel cx cy x y d = Some l
              /\ (List.length (vertices l) <= 8 * Z.to_nat (Qfloor y - x + 1))%nat.
Proof.
  induction fuel as [|fuel IH]; intros x y d Hf; [lia|].
  cbn [midpoint_loop].
  destruct (Qle_bool (inject_Z x) y) eqn:E.
  - apply Qle_bool_floor in E. pose proof (Qfloor_pred_le y) as P.
    destruct (Qltb d 0).
    + destruct (IH (x + 1)%Z y (d + 2 * inject_Z x + 3)) as (l & El & Len); [lia|].
      rewrite El. eexists. split; [reflexivity|].
      rewrite vertices_app, length_app. cbn [plot_circle_points vertices List.length].
      lia.
    + destruct (IH (x + 1)%Z (y - 1) (d + 2 * (inject_Z x - y) + 5))
        as (l & El & Len); [lia|].
      rewrite El. eexists. split; [reflexivity|].
      rewrite vertices_app, length_app. cbn [plot_circle_points vertices List.length].
      lia.
  - exists []. split; [reflexivity|]. cbn. lia.
Qed.


(** *** The fan closes *)

Local Open Scope R_scope.



End RasterFacts.

Module TextFacts.
Import PyNum GL Rasterizer Glyph Shapes DDAFacts GlyphFacts.
Local Open Scope string_scope.
Local Open Scope Q_scope.

(** [draw_polygon] has no size test: whatever list it is given, the empty
    one and those of one or two points included, it opens a GL_POLYGON, emits
    exactly the given points in their order, and closes it. *)
Theorem draw_polygon_emits_its_points (points : list (Q * Q)) (r g b : Q) :
  vertices (draw_polygon points r g b) = points
  /\ List.length (draw_polygon points r g b) = (List.length points + 3)%nat
  /\ nth 1 (draw_polygon points r g b) glEnd = glBegin GL_POLYGON
  /\ last (draw_polygon points r g b) (glBegin GL_POLYGON) = glEnd.
Proof.
  unfold draw_polygon. split; [|split; [|split]].
  - rewrite !vertices_app. cbn [vertices app]. rewrite app_nil_r.
    induction points as [|[px py] t IH]; [reflexivity|].
    cbn [map vertices fst snd]. rewrite IH. reflexivity.
  - cbn [app List.length]. rewrite length_app, length_map. cbn [List.length]. lia.
  - reflexivity.
  - cbn [app]. rewrite app_comm_cons, app_comm_cons. apply last_last.
Qed.

(** The block-letter text does not uppercase its input: a character other
    than [D], [I], [U] and the space, lowercase [d], [i] and [u] included,
    draws nothing and leaves the cursor where it is, so the text is drawn as
    if the character were not there. *)
Theorem draw_text_is_case_sensitive (ch : ascii) (s1 s2 : string)
    (x y scale : Q) :
  ch <> "D"%char -> ch <> "I"%char -> ch <> "U"%char -> ch <> " "%char ->
  draw_text (s1 ++ String ch s2) x y scale = draw_text (s1 ++ s2) x y scale.
Proof.
  intros HD HI HU Hs.
  assert (Hn : letters ch = None).
  { destruct ch as [[] [] [] [] [] [] [] []]; try reflexivity; contradiction. }
  unfold draw_text. generalize 0 as off.
  induction s1 as [|c t IH]; intros off.
  - cbn [append text_loop]. rewrite Hn.
    destruct (Ascii.eqb_spec ch " "%char); [contradiction|reflexivity].
  - cbn [append text_loop].
    destruct (letters c); [rewrite IH; reflexivity|].
    destruct (Ascii.eqb c " "); apply IH.
Qed.

Lemma draw_text_is_case_sensitive_d :
  "d"%char <> "D"%char /\ "d"%char <> "I"%char /\ "d"%char <> "U"%char
  /\ "d"%char <> " "%char
  /\ draw_text ("D" ++ String "d" "IU") 10 20 1 = draw_text ("D" ++ "IU") 10 20 1.
Proof.
  repeat (split; [discriminate|]).
  apply (@draw_text_is_case_sensitive "d" "D" "IU" 10 20 1); discriminate.
Defined.

(** Where the cursor of [draw_text_dda] stands after a text. *)
Fixpoint dda_cursor (s : string) (scale char_spacing offset_x : Q) : Q :=
  match s with
  | EmptyString => offset_x
  | String char t =>
      match letter_lines char with
      | Some _ =>
          dda_cursor t scale char_spacing
            (offset_x + 6 * scale * (15 # 10) * char_spacing)
      | None =>
          if Ascii.eqb char " " then
            dda_cursor t scale char_spacing
              (offset_x + 5 * scale * (15 # 10) * char_spacing)
          else dda_cursor t scale char_spacing offset_x
      end
  end.

(** The characters of a text that have a line glyph, and its spaces. *)
Fixpoint count_glyphs (s : string) : Z :=
  match s with
  | EmptyString => 0
  | String char t =>
      ((match letter_lines char with Some _ => 1 | None => 0 end) + count_glyphs t)%Z
  end.

Fixpoint count_spaces (s : string) : Z :=
  match s with
  | EmptyString => 0
  | String char t =>
      ((match letter_lines char with
        | Some _ => 0
        | None => if Ascii.eqb char " " then 1 else 0
        end) + count_spaces t)%Z
  end.

Lemma text_dda_loop_app (s1 s2 : string) (x y scale r g b sp : Q) :
  forall off,
    text_dda_loop (s1 ++ s2) x y scale r g b sp off
    = (text_dda_loop s1 x y scale r g b sp off
       ++ text_dda_loop s2 x y scale r g b sp (dda_cursor s1 scale sp off))%list.
Proof.
  induction s1 as [|c t IH]; intros off; [reflexivity|].
  cbn [append text_dda_loop dda_cursor].
  destruct (letter_lines c).
  - rewrite IH, app_assoc. reflexivity.
  - destruct (Ascii.eqb c " "); apply IH.
Qed.

Lemma dda_cursor_width (s : string) (scale sp : Q) :
  forall off,
    dda_cursor s scale sp off
    == off + (inject_Z (count_glyphs s) * 9 + inject_Z (count_spaces s) * (15 # 2))
             * scale * sp.
Proof.
  induction s as [|c t IH]; intros off.
  - cbn [dda_cursor count_glyphs count_spaces]. change (inject_Z 0) with 0. ring.
  - cbn [dda_cursor count_glyphs count_spaces].
    destruct (letter_lines c).
    + rewrite IH, !inject_Z_plus. change (inject_Z 1) with 1.
      change (inject_Z 0) with 0. ring.
    + destruct (Ascii.eqb c " "); rewrite IH, !inject_Z_plus;
        change (inject_Z 1) with 1; change (inject_Z 0) with 0; ring.
Qed.

(** Drawing a text made of two parts is drawing the first part and then the
    second from where the cursor stands, and after a text the cursor has
    advanced by [9 scale char_spacing] for each character that has a glyph
    and [7.5 scale char_spacing] for each space, nothing for any other
    character. *)
Theorem draw_text_dda_composes (s1 s2 : string) (x y scale r g b sp : Q) :
  let cursor := dda_cursor (upper s1) scale sp 0 in
  draw_text_dda (s1 ++ s2) x y scale r g b sp
  = (draw_text_dda s1 x y scale r g b sp
     ++ text_dda_loop (upper s2) x y scale r g b sp cursor)%list
  /\ cursor == (inject_Z (count_glyphs (upper s1)) * 9
                + inject_Z (count_spaces (upper s1)) * (15 # 2)) * scale * sp.
Proof.
  cbv zeta. split.
  - unfold draw_text_dda. rewrite upper_app. apply text_dda_loop_app.
  - rewrite dda_cursor_width. ring.
Qed.

End TextFacts.
